(** * AIExamSaathi: the real-time voice session pipeline

    A shallow embedding of the voice pipeline of the study assistant:
    the PCM frame codec ([createBlob], [encode], [decode],
    [decodeAudioData]), the playback scheduler and the transcript
    assembler of the [onmessage] handlers, the promise-deferred frame
    submission of [onaudioprocess], the tool-call handlers and the
    session lifecycle ([startLiveSession], [stopLiveSession],
    [startVoiceSession], [stopVoiceSession]).

    Three files carry the pipeline, and the modules below keep them apart:
    - [MiniCompanion]: src/App.tsx (the floating mini companion);
    - [LiveView]: src/services/geminiService.ts, lines 236-640 (the
      assistant view with playback and tools);
    - [AssistantView]: src/components/AssistantView.tsx (the assistant
      view without playback).

    Numbers.  A JavaScript number that the pipeline handles is modelled
    by the rational it denotes ([Q]).  Every finite Float32 sample is a
    dyadic rational; scaling it by 32768 = 2^15 is exact in binary64, and
    an Int16 divided by 32768 is exact in binary32, so the codec computes
    on rationals exactly what it computes on floats.  Integers are [Z]
    with the wrap-around of the typed arrays written out. *)

From Stdlib Require Import ZArith QArith Qabs Qminmax Lia.
From stdpp Require Import base option list strings gmap.

Local Open Scope Z_scope.

(* ===================================================================== *)
(** * Part I: the embedding *)
(* ===================================================================== *)

(** ** JavaScript strings *)

Module Js.

(** A JavaScript string is a sequence of UTF-16 code units. *)
Definition jsstring := list Z.

(** The code units of an ASCII literal. *)
Fixpoint lit (s : String.string) : jsstring :=
  match s with
  | String.EmptyString => []
  | String.String c r => Z.of_N (Ascii.N_of_ascii c) :: lit r
  end.
Arguments lit s%_string.

(** [if (s)] on a string: the empty string is the only falsy one. *)
Definition truthy (s : jsstring) : bool :=
  match s with [] => false | _ :: _ => true end.

(** WhiteSpace and LineTerminator code units of ECMAScript, the ones
    [String.prototype.trim] removes. *)
Definition is_white (c : Z) : bool :=
  (c =? 9) || (c =? 10) || (c =? 11) || (c =? 12) || (c =? 13)
  || (c =? 32) || (c =? 160) || (c =? 5760)
  || ((8192 <=? c) && (c <=? 8202))
  || (c =? 8232) || (c =? 8233) || (c =? 8239) || (c =? 8287)
  || (c =? 12288) || (c =? 65279).

Fixpoint trim_start (s : jsstring) : jsstring :=
  match s with
  | [] => []
  | c :: r => if is_white c then trim_start r else s
  end.

Definition trim_end (s : jsstring) : jsstring :=
  rev (trim_start (rev s)).

(** [s.trim()] *)
Definition trim (s : jsstring) : jsstring := trim_end (trim_start s).

(** [String.fromCharCode(n)]: one code unit, [n] reduced to 16 bits. *)
Definition fromCharCode (n : Z) : Z := n mod 65536.

End Js.

(** ** Exceptions and state *)

Module Eff.

(** A computation on a state that returns or throws; the state it
    leaves is there in both cases. *)
Inductive Result (A : Type) := Returned (a : A) | Thrown.
Arguments Returned {A} a.
Arguments Thrown {A}.

Definition M (S A : Type) : Type := S → Result A * S.

Definition ret {S A} (a : A) : M S A := λ s, (Returned a, s).

Definition bind {S A B} (m : M S A) (k : A → M S B) : M S B :=
  λ s, match m s with
       | (Returned a, s') => k a s'
       | (Thrown, s') => (Thrown, s')
       end.

Definition throw {S A} : M S A := λ s, (Thrown, s).

(** [try { m } catch (e) {}] *)
Definition try_catch {S} (m : M S unit) : M S unit :=
  λ s, (Returned tt, (m s).2).

Definition gets {S A} (f : S → A) : M S A := λ s, (Returned (f s), s).

Definition modify {S} (f : S → S) : M S unit := λ s, (Returned tt, f s).

(** The state a computation leaves, and whether it returned. *)
Definition exec {S A} (m : M S A) (s : S) : S := (m s).2.

Definition returns {S A} (m : M S A) (s : S) : bool :=
  match (m s).1 with Returned _ => true | Thrown => false end.

#[global] Instance M_ret {S} : MRet (M S) := λ A, @ret S A.
#[global] Instance M_bind {S} : MBind (M S) := λ A B k m, bind m k.

End Eff.

(** ** PCM frame codec *)

Module Codec.
Import Js.

(** *** Typed arrays *)

(** The values of a [Uint8Array] slot and of an [Int16Array] slot. *)
Definition byte (b : Z) : Prop := 0 <= b < 256.

Definition int16 (v : Z) : Prop := -32768 <= v < 32768.

(** ToInt16 of ECMAScript on an integer: reduce modulo 2^16, then read
    the upper half of the range as negative. *)
Definition ToInt16 (n : Z) : Z :=
  let m := n mod 65536 in
  if 32768 <=? m then m - 65536 else m.

(** Truncation of a number toward zero. *)
Definition truncate (x : Q) : Z := Z.quot (Qnum x) (Z.pos (Qden x)).

(** Storing a number in an [Int16Array] slot. *)
Definition store_int16 (x : Q) : Z := ToInt16 (truncate x).

(** Storing an integer in a [Uint8Array] slot. *)
Definition store_uint8 (n : Z) : Z := n mod 256.

(** [new Uint8Array(int16.buffer)]: the bytes behind an [Int16Array],
    low byte first. *)
Definition int16_bytes (v : Z) : list Z :=
  let u := v mod 65536 in [u mod 256; u / 256].

Definition buffer_of_int16 (a : list Z) : list Z :=
  flat_map int16_bytes a.

(** Reading a little-endian byte pair as an Int16. *)
Definition int16_of_bytes (lo hi : Z) : Z := ToInt16 (lo + 256 * hi).

(** The [Int16Array] over a byte buffer, as far as whole elements go;
    a trailing odd byte is returned apart. *)
Fixpoint int16_view (bytes : list Z) : list Z * list Z :=
  match bytes with
  | lo :: hi :: rest =>
      let '(a, tl) := int16_view rest in (int16_of_bytes lo hi :: a, tl)
  | tl => ([], tl)
  end.

(** *** base64: [btoa] and [atob] *)

Definition b64_char (s : Z) : Z :=
  if s <? 26 then s + 65
  else if s <? 52 then s + 71
  else if s <? 62 then s - 4
  else if s =? 62 then 43 else 47.

Definition b64_index (c : Z) : option Z :=
  if (65 <=? c) && (c <=? 90) then Some (c - 65)
  else if (97 <=? c) && (c <=? 122) then Some (c - 71)
  else if (48 <=? c) && (c <=? 57) then Some (c + 4)
  else if c =? 43 then Some 62
  else if c =? 47 then Some 63
  else None.

(** The padding character [=]. *)
Definition pad : Z := 61.

Fixpoint btoa_groups (s : list Z) : list Z :=
  match s with
  | [] => []
  | [a] => [b64_char (a / 4); b64_char (a mod 4 * 16); pad; pad]
  | [a; b] =>
      [b64_char (a / 4); b64_char (a mod 4 * 16 + b / 16);
       b64_char (b mod 16 * 4); pad]
  | a :: b :: c :: rest =>
      b64_char (a / 4) :: b64_char (a mod 4 * 16 + b / 16)
      :: b64_char (b mod 16 * 4 + c / 64) :: b64_char (c mod 64)
      :: btoa_groups rest
  end.

Definition is_latin1 (c : Z) : bool := (0 <=? c) && (c <=? 255).

(** [btoa(s)]: throws (here [None]) on a code unit above 255. *)
Definition btoa (s : jsstring) : option jsstring :=
  if forallb is_latin1 s then Some (btoa_groups s) else None.

Definition is_ascii_white (c : Z) : bool :=
  (c =? 9) || (c =? 10) || (c =? 12) || (c =? 13) || (c =? 32).

(** Removes one or two trailing [=]. *)
Fixpoint drop_pad (d : list Z) : list Z :=
  match d with
  | [] => []
  | [a] => if a =? pad then [] else [a]
  | [a; b] =>
      if b =? pad then (if a =? pad then [] else [a]) else [a; b]
  | a :: ((_ :: _ :: _) as rest) => a :: drop_pad rest
  end.

Fixpoint atob_groups (d : list Z) : option (list Z) :=
  match d with
  | [] => Some []
  | [_] => None
  | [c1; c2] =>
      s1 ← b64_index c1; s2 ← b64_index c2;
      Some [s1 * 4 + s2 / 16]
  | [c1; c2; c3] =>
      s1 ← b64_index c1; s2 ← b64_index c2; s3 ← b64_index c3;
      Some [s1 * 4 + s2 / 16; s2 mod 16 * 16 + s3 / 4]
  | c1 :: c2 :: c3 :: c4 :: rest =>
      s1 ← b64_index c1; s2 ← b64_index c2;
      s3 ← b64_index c3; s4 ← b64_index c4;
      r ← atob_groups rest;
      Some (s1 * 4 + s2 / 16 :: s2 mod 16 * 16 + s3 / 4
            :: s3 mod 4 * 64 + s4 :: r)
  end.

(** [atob(data)], the forgiving base64 decoding of the platform: ASCII
    whitespace is skipped, padding is removed from data of a length
    divisible by four, and a character outside the alphabet or a
    dangling single character makes it throw (here [None]). *)
Definition atob (data : jsstring) : option jsstring :=
  let d := filter (λ c, is_ascii_white c = false) data in
  let d := if (length d mod 4 =? 0)%nat then drop_pad d else d in
  atob_groups d.

(** *** The repository's codec functions *)

(** [encode(bytes)]: one code unit per byte, then [btoa]. *)
Definition encode (bytes : list Z) : option jsstring :=
  btoa (map fromCharCode bytes).

(** [decode(base64)]: [atob], then one [Uint8Array] slot per code
    unit. *)
Definition decode (base64 : jsstring) : option (list Z) :=
  map store_uint8 <$> atob base64.

Record Blob := { data : jsstring; mimeType : jsstring }.

(** [createBlob(data)]: [int16[i] = data[i] * 32768] for every sample,
    then the bytes of the array, encoded. *)
Definition pcm_of_samples (samples : list Q) : list Z :=
  map (λ x, store_int16 (x * 32768)%Q) samples.

Definition createBlob (samples : list Q) : option Blob :=
  d ← encode (buffer_of_int16 (pcm_of_samples samples));
  Some {| data := d; mimeType := lit "audio/pcm;rate=16000" |}.

(** An [AudioBuffer]: its frame count, its sample rate and the samples
    of each channel. *)
Record AudioBuffer := {
  ab_length : nat;
  ab_sampleRate : positive;
  ab_channels : list (list Q)
}.

(** [buffer.duration], in seconds. *)
Definition duration (b : AudioBuffer) : Q :=
  Z.of_nat (ab_length b) # ab_sampleRate b.

(** [ctx.createBuffer(numChannels, frameCount, sampleRate)] throws
    NotSupportedError unless there is at least one channel and one
    frame; a fractional frame count is truncated. *)
Definition frame_count (n numChannels : nat) : nat := (n / numChannels)%nat.

(** [channelData[i] = dataInt16[i * numChannels + channel] / 32768.0] *)
Definition channel_data (a : list Z) (numChannels frameCount channel : nat)
  : list Q :=
  map (λ i, nth (i * numChannels + channel)%nat a 0 # 32768)
      (seq 0 frameCount).

Definition fill_buffer (a : list Z) (sampleRate : positive)
    (numChannels : nat) : option AudioBuffer :=
  let frameCount := frame_count (length a) numChannels in
  if ((numChannels =? 0) || (frameCount =? 0))%nat then None
  else Some {| ab_length := frameCount;
               ab_sampleRate := sampleRate;
               ab_channels :=
                 map (channel_data a numChannels frameCount)
                     (seq 0 numChannels) |}.

End Codec.


(** ** Messages of the live endpoint *)

Module Live.
Import Js.

(** A function call of [message.toolCall.functionCalls].  The arguments
    object is optional in the message. *)
Record FunctionCall := {
  fc_id : jsstring;
  fc_name : jsstring;
  fc_args : option (gmap (list Z) (list Z))
}.

(** A [Transcription] of the message.  The handlers test the object
    and read its [text], which the object may lack. *)
Record Transcription := { tr_text : option jsstring }.

(** The fields of a [LiveServerMessage] that the handlers read:
    [toolCall.functionCalls],
    [serverContent.modelTurn.parts[0].inlineData.data],
    [serverContent.inputTranscription] and
    [serverContent.outputTranscription] with their [text],
    [serverContent.turnComplete] and [serverContent.interrupted]. *)
Record LiveServerMessage := {
  toolCall : option (list FunctionCall);
  inlineData : option jsstring;
  inputTranscription : option Transcription;
  outputTranscription : option Transcription;
  turnComplete : bool;
  interrupted : bool
}.

Definition empty_message : LiveServerMessage :=
  {| toolCall := None; inlineData := None; inputTranscription := None;
     outputTranscription := None; turnComplete := false;
     interrupted := false |}.

(** What the session is sent: [sendRealtimeInput({ media })] and
    [sendToolResponse({ functionResponses: { id, name, response:
    { result } } })]. *)
Inductive Outbound :=
| RealtimeInput (media : Codec.Blob)
| ToolResponse (id name result : jsstring).

End Live.

(** ** Playback scheduler *)

Module Playback.
Import Codec.

(** An [AudioBufferSourceNode]: [stop()] throws InvalidStateError on a
    node that was never started and does nothing on one that already
    finished. *)
Inductive NodeState := Unstarted | Started | Ended | Stopped.

Record Node := {
  startAt : Q;
  playFor : Q;
  state : NodeState
}.

(** [nextStartTime], the [sources] set (a JavaScript [Set] keeps its
    elements in insertion order; a node is named by its index in
    [nodes]) and the nodes the output context has created. *)
Record Scheduler := {
  nextStartTime : Q;
  sources : list nat;
  nodes : list Node
}.

Definition init : Scheduler :=
  {| nextStartTime := 0; sources := []; nodes := [] |}.

(** [sources.add(x)] and [sources.delete(x)] *)
Definition set_add (x : nat) (s : list nat) : list nat :=
  if bool_decide (x ∈ s) then s else s ++ [x].

Definition set_delete (x : nat) (s : list nat) : list nat :=
  filter (λ y, y ≠ x) s.

(** [Math.max(nextStartTime.current, outCtx.currentTime)] *)
Definition start_time (now : Q) (st : Scheduler) : Q :=
  Qmax (nextStartTime st) now.

(** The audio branch of [onmessage], from the decoded buffer on:
<<
  nextStartTime.current = Math.max(nextStartTime.current, outCtx.currentTime);
  const source = outCtx.createBufferSource();
  source.buffer = buffer;
  source.start(nextStartTime.current);
  nextStartTime.current += buffer.duration;
  sources.current.add(source);
>> *)
Definition schedule (now : Q) (buffer : AudioBuffer) (st : Scheduler)
  : Scheduler :=
  let t := start_time now st in
  let source := length (nodes st) in
  {| nextStartTime := t + duration buffer;
     sources := set_add source (sources st);
     nodes := nodes st
              ++ [{| startAt := t; playFor := duration buffer;
                     state := Started |}] |}.

(** The whole audio branch: [base64Audio] absent or empty schedules
    nothing; a frame that does not decode throws out of the handler,
    with the clock already advanced to the present. *)
Definition on_audio
    (decodeAudioData : list Z → positive → nat → option AudioBuffer)
    (now : Q) (base64Audio : option Js.jsstring) : Eff.M Scheduler unit :=
  λ st,
    match base64Audio with
    | Some ((_ :: _) as b) =>
        match decode b ≫= (λ bytes, decodeAudioData bytes 24000%positive 1%nat) with
        | Some buffer => (Eff.Returned tt, schedule now buffer st)
        | None =>
            (Eff.Thrown,
             {| nextStartTime := start_time now st;
                sources := sources st; nodes := nodes st |})
        end
    | _ => (Eff.Returned tt, st)
    end.

(** The [ended] event of a source: the node has played to its end and
    its listener takes it out of the set. *)
Definition finish (n : Node) : Node :=
  match state n with
  | Started => {| startAt := startAt n; playFor := playFor n; state := Ended |}
  | _ => n
  end.

Definition on_ended (source : nat) (st : Scheduler) : Scheduler :=
  {| nextStartTime := nextStartTime st;
     sources := set_delete source (sources st);
     nodes := alter finish source (nodes st) |}.

(** [s.stop()] *)
Definition stop (n : Node) : option Node :=
  match state n with
  | Unstarted => None
  | Started =>
      Some {| startAt := startAt n; playFor := playFor n; state := Stopped |}
  | Ended | Stopped => Some n
  end.

(** [try { s.stop(); } catch(e) {}] *)
Definition try_stop (ns : list Node) (source : nat) : list Node :=
  match ns !! source with
  | Some n =>
      match stop n with
      | Some n' => <[source := n']> ns
      | None => ns
      end
  | None => ns
  end.

(** [sources.current.forEach(s => { try { s.stop(); } catch(e) {} })] *)
Definition stop_all (st : Scheduler) : list Node :=
  foldl try_stop (nodes st) (sources st).

(** [sources.current.forEach(s => s.stop())]: the first [stop()] that
    throws ends the loop; [false] then, with the nodes as they are. *)
Fixpoint stop_each (ns : list Node) (ss : list nat) : list Node * bool :=
  match ss with
  | [] => (ns, true)
  | s :: rest =>
      match ns !! s with
      | Some n =>
          match stop n with
          | Some n' => stop_each (<[s := n']> ns) rest
          | None => (ns, false)
          end
      | None => (ns, false)
      end
  end.

(** Every source that was in the set is silent: none is still
    [Started]; one that had finished is as it was. *)
Definition silenced (before after : Scheduler) : Prop :=
  ∀ s n, s ∈ sources before → nodes before !! s = Some n →
    ∃ n', nodes after !! s = Some n' ∧
          state n' = match state n with Started => Stopped | q => q end.

(** Every source of the set has been started, as [schedule] leaves it. *)
Definition started (st : Scheduler) : Prop :=
  ∀ s, s ∈ sources st →
    ∃ n, nodes st !! s = Some n ∧ state n ≠ Unstarted.

(** A sequence of inbound chunks, each with the reading of the output
    clock at its arrival and its decoded buffer. *)
Definition play (chunks : list (Q * AudioBuffer)) (st : Scheduler)
  : Scheduler :=
  foldl (λ st c, schedule c.1 c.2 st) st chunks.

(** The times given to [source.start], one per chunk, in order. *)
Definition starts (chunks : list (Q * AudioBuffer)) (st : Scheduler)
  : list Q :=
  startAt <$> drop (length (nodes st)) (nodes (play chunks st)).

(** The same times, computed chunk by chunk. *)
Fixpoint times (chunks : list (Q * AudioBuffer)) (st : Scheduler) : list Q :=
  match chunks with
  | [] => []
  | c :: r => start_time c.1 st :: times r (schedule c.1 c.2 st)
  end.

(** [stop()] with its exception caught. *)
Definition halt (n : Node) : Node := default n (stop n).

(** What the scheduler goes through besides: a chunk, the end of a
    source, an interruption. *)
Inductive Event :=
| Chunk (now : Q) (buffer : AudioBuffer)
| SourceEnded (source : nat)
| Interrupted.

End Playback.

(** ** Transcript assembler *)

Module Transcript.
Import Js Live.

Inductive Role := user | ai.

Record Message := { role : Role; text : jsstring }.

(** [userTextBuffer], [aiTextBuffer], the partial texts on display and
    the message log of the assistant views. *)
Record Assembler := {
  userTextBuffer : jsstring;
  aiTextBuffer : jsstring;
  currentTurnUserText : jsstring;
  currentTurnAiText : jsstring;
  messages : list Message
}.

Definition greeting : Message :=
  {| role := ai;
     text := lit "Namaste! I'm ExamSaathi. I'm ready to help you with your studies. Just start speaking!" |}.

Definition init : Assembler :=
  {| userTextBuffer := []; aiTextBuffer := [];
     currentTurnUserText := []; currentTurnAiText := [];
     messages := [greeting] |}.

(** [userTextBuffer.current += text; setCurrentTurnUserText(...)] *)
Definition on_input (t : jsstring) (a : Assembler) : Assembler :=
  {| userTextBuffer := userTextBuffer a ++ t;
     aiTextBuffer := aiTextBuffer a;
     currentTurnUserText := userTextBuffer a ++ t;
     currentTurnAiText := currentTurnAiText a;
     messages := messages a |}.

(** [aiTextBuffer.current += text; setCurrentTurnAiText(...)] *)
Definition on_output (t : jsstring) (a : Assembler) : Assembler :=
  {| userTextBuffer := userTextBuffer a;
     aiTextBuffer := aiTextBuffer a ++ t;
     currentTurnUserText := currentTurnUserText a;
     currentTurnAiText := aiTextBuffer a ++ t;
     messages := messages a |}.

(** [...(t ? [{ role, text: t }] : [])] *)
Definition entry (r : Role) (t : jsstring) : list Message :=
  if truthy t then [{| role := r; text := t |}] else [].

(** What the turn-complete branch appends to the log:
<<
  const uText = userTextBuffer.current.trim();
  const aText = aiTextBuffer.current.trim();
  if (uText || aText) {
    setMessages(prev => [...prev,
      ...(uText ? [{ role: 'user', text: uText }] : []),
      ...(aText ? [{ role: 'ai', text: aText }] : [])]);
  }
>> *)
Definition flushed (a : Assembler) : list Message :=
  let uText := trim (userTextBuffer a) in
  let aText := trim (aiTextBuffer a) in
  if truthy uText || truthy aText
  then entry user uText ++ entry ai aText
  else [].

Definition on_turn_complete (a : Assembler) : Assembler :=
  {| userTextBuffer := []; aiTextBuffer := [];
     currentTurnUserText := []; currentTurnAiText := [];
     messages := messages a ++ flushed a |}.

(** What [buffer += transcription.text] appends: the text, and the
    nine code units of [undefined] when the transcription has none. *)
Definition appended (t : Transcription) : jsstring :=
  default (lit "undefined") (tr_text t).

(** The transcription branches of [onmessage], in the order of the
    handler: input, output, turn complete.
<<
  if (message.serverContent?.inputTranscription) {
    userTextBuffer.current += message.serverContent.inputTranscription.text;
    setCurrentTurnUserText(userTextBuffer.current);
  }
  if (message.serverContent?.outputTranscription) {
    aiTextBuffer.current += message.serverContent.outputTranscription.text;
    setCurrentTurnAiText(aiTextBuffer.current);
  }
  if (message.serverContent?.turnComplete) { ... }
>> *)
Definition on_message (m : LiveServerMessage) (a : Assembler) : Assembler :=
  let a := match inputTranscription m with
           | Some t => on_input (appended t) a | None => a end in
  let a := match outputTranscription m with
           | Some t => on_output (appended t) a | None => a end in
  if turnComplete m then on_turn_complete a else a.

(** The three events of the assembler, each a message of its own; a
    partial event carries the text that is appended. *)
Inductive Event :=
| PartialUser (t : jsstring)
| PartialAi (t : jsstring)
| TurnComplete.

Definition message_of (e : Event) : LiveServerMessage :=
  match e with
  | PartialUser t =>
      {| toolCall := None; inlineData := None;
         inputTranscription := Some {| tr_text := Some t |};
         outputTranscription := None;
         turnComplete := false; interrupted := false |}
  | PartialAi t =>
      {| toolCall := None; inlineData := None;
         inputTranscription := None;
         outputTranscription := Some {| tr_text := Some t |};
         turnComplete := false; interrupted := false |}
  | TurnComplete =>
      {| toolCall := None; inlineData := None;
         inputTranscription := None; outputTranscription := None;
         turnComplete := true; interrupted := false |}
  end.

Definition run (evs : list Event) (a : Assembler) : Assembler :=
  foldl (λ a e, on_message (message_of e) a) a evs.

(** The messages a run has added to the log. *)
Definition emitted (evs : list Event) (a : Assembler) : list Message :=
  drop (length (messages a)) (messages (run evs a)).

(** The events that one message carries, in the order in which the
    handler reads them. *)
Definition events_of (m : LiveServerMessage) : list Event :=
  match inputTranscription m with
  | Some t => [PartialUser (appended t)] | None => [] end
  ++ match outputTranscription m with
     | Some t => [PartialAi (appended t)] | None => [] end
  ++ (if turnComplete m then [TurnComplete] else []).

(** *** The assembler in the words of the specification *)




Fixpoint user_fragments (turn : list Event) : jsstring :=
  match turn with
  | [] => []
  | PartialUser t :: r => t ++ user_fragments r
  | _ :: r => user_fragments r
  end.

Fixpoint ai_fragments (turn : list Event) : jsstring :=
  match turn with
  | [] => []
  | PartialAi t :: r => t ++ ai_fragments r
  | _ :: r => ai_fragments r
  end.


(** No whitespace at either end. *)
Definition starts_white (s : jsstring) : bool :=
  match s with [] => false | c :: _ => is_white c end.

Definition trimmed (s : jsstring) : Prop :=
  starts_white s = false ∧ starts_white (rev s) = false.

Definition all_white (s : jsstring) : Prop := Forall (λ c, is_white c = true) s.

End Transcript.

(** ** Session transport: sending through the session promise *)

Module Transport.
Import Js Codec Live.

Inductive PromiseState := Pending | Fulfilled | Rejected.

(** The promise of [ai.live.connect], the reactions that [then] has
    queued on it (each will send one thing, in the order of
    registration) and what the session has been sent so far. *)
Record Connection := {
  promise : PromiseState;
  reactions : list Outbound;
  sent : list Outbound
}.

Definition connecting : Connection :=
  {| promise := Pending; reactions := []; sent := [] |}.

(** [sessionPromise.then((session) => { session.send...(o) })]: queued
    while the promise is pending, run at once (as a microtask of this
    callback) when it is fulfilled, never run when it is rejected. *)
Definition then_send (o : Outbound) (c : Connection) : Connection :=
  match promise c with
  | Pending =>
      {| promise := Pending; reactions := reactions c ++ [o]; sent := sent c |}
  | Fulfilled =>
      {| promise := Fulfilled; reactions := reactions c; sent := sent c ++ [o] |}
  | Rejected => c
  end.

(** The promise settles once; fulfilment runs the queued reactions in
    order. *)
Definition fulfil (c : Connection) : Connection :=
  match promise c with
  | Pending =>
      {| promise := Fulfilled; reactions := []; sent := sent c ++ reactions c |}
  | _ => c
  end.

Definition reject (c : Connection) : Connection :=
  match promise c with
  | Pending => {| promise := Rejected; reactions := []; sent := sent c |}
  | _ => c
  end.

(** [scriptProcessor.onaudioprocess]:
<<
  const pcmBlob = createBlob(inputData);
  sessionPromise.then((session) => {
    session.sendRealtimeInput({ media: pcmBlob });
  });
>> *)
Definition onaudioprocess (inputData : list Q) (c : Connection) : Connection :=
  match createBlob inputData with
  | Some pcmBlob => then_send (RealtimeInput pcmBlob) c
  | None => c
  end.

Inductive Event :=
| Capture (inputData : list Q)
| Resolve
| Reject.

Definition step (c : Connection) (e : Event) : Connection :=
  match e with
  | Capture inputData => onaudioprocess inputData c
  | Resolve => fulfil c
  | Reject => reject c
  end.

Definition run (evs : list Event) (c : Connection) : Connection :=
  foldl step c evs.

Definition is_capture (e : Event) : bool :=
  match e with Capture _ => true | _ => false end.

(** Nothing captured is lost: before the promise settles the frames
    wait as reactions, in capture order; once it is fulfilled they have
    all been sent, in capture order. *)
Definition in_order (c : Connection) (frames : list Outbound) : Prop :=
  match promise c with
  | Pending => sent c = [] ∧ reactions c = frames
  | Fulfilled => reactions c = [] ∧ sent c = frames
  | Rejected => True
  end.

(** The frames captured, in capture order. *)
Fixpoint captured (evs : list Event) : list Outbound :=
  match evs with
  | [] => []
  | Capture inputData :: r =>
      match createBlob inputData with
      | Some b => RealtimeInput b :: captured r
      | None => captured r
      end
  | _ :: r => captured r
  end.

End Transport.

(** ** Session lifecycle *)

Module Lifecycle.
Import Eff.

(** The platform calls of the teardown. *)
Inductive Call :=
| Disconnect (processor : nat)
| TrackStop (stream : nat)
| Close (connection : nat)
| Suspend.

(** A settled session promise: the connection it resolved to, or a
    rejection. *)
Inductive SessionPromise := Connected (connection : nat) | Failed.

Inductive Status := Inactive | Initializing | Connecting | Active | Stopping.

(** The steps of the teardown, as the specification letters them:
    (a) stop forwarding captured frames, (b) release the microphone
    stream, (c) close the remote connection, (d) clear all playback
    state, (e) transition to closed. *)
Inductive Phase :=
| StopForwarding | ReleaseMic | CloseConnection | ClearPlayback | ToClosed.

(** What the platform holds: live microphone streams, open connections,
    script processors that forward frames; [created] numbers the next
    object. *)
Record Devices := {
  mics : gset nat;
  conns : gset nat;
  procs : gset nat;
  created : nat
}.

(** The refs and flags of a voice surface, the devices, and the
    teardown steps performed so far. *)
Record State := mkState {
  playback : Playback.Scheduler;
  scriptProcessorRef : option nat;
  streamRef : option nat;
  sessionPromiseRef : option SessionPromise;
  isLive : bool;
  statusText : Status;
  devices : Devices;
  phases : list Phase
}.

Definition init : State :=
  {| playback := Playback.init; scriptProcessorRef := None;
     streamRef := None; sessionPromiseRef := None; isLive := false;
     statusText := Inactive;
     devices := {| mics := ∅; conns := ∅; procs := ∅; created := 0 |};
     phases := [] |}.

Definition set_playback (p : Playback.Scheduler) (st : State) : State :=
  let 'mkState _ pr sr sp live status dev ph := st in
  mkState p pr sr sp live status dev ph.

Definition set_processor (p : option nat) (st : State) : State :=
  let 'mkState pb _ sr sp live status dev ph := st in
  mkState pb p sr sp live status dev ph.

Definition set_stream (s : option nat) (st : State) : State :=
  let 'mkState pb pr _ sp live status dev ph := st in
  mkState pb pr s sp live status dev ph.

Definition set_session (s : option SessionPromise) (st : State) : State :=
  let 'mkState pb pr sr _ live status dev ph := st in
  mkState pb pr sr s live status dev ph.

Definition set_isLive (b : bool) (st : State) : State :=
  let 'mkState pb pr sr sp _ status dev ph := st in
  mkState pb pr sr sp b status dev ph.

Definition set_status (s : Status) (st : State) : State :=
  let 'mkState pb pr sr sp live _ dev ph := st in
  mkState pb pr sr sp live s dev ph.

Definition set_devices (d : Devices) (st : State) : State :=
  let 'mkState pb pr sr sp live status _ ph := st in
  mkState pb pr sr sp live status d ph.

Definition log (p : Phase) (st : State) : State :=
  let 'mkState pb pr sr sp live status dev ph := st in
  mkState pb pr sr sp live status dev (ph ++ [p]).

(** What a platform call does when it returns. *)
Definition perform (c : Call) (st : State) : State :=
  let d := devices st in
  match c with
  | Disconnect p =>
      log StopForwarding
        (set_devices {| mics := mics d; conns := conns d;
                        procs := procs d ∖ {[p]}; created := created d |} st)
  | TrackStop s =>
      log ReleaseMic
        (set_devices {| mics := mics d ∖ {[s]}; conns := conns d;
                        procs := procs d; created := created d |} st)
  | Close c =>
      log CloseConnection
        (set_devices {| mics := mics d; conns := conns d ∖ {[c]};
                        procs := procs d; created := created d |} st)
  | Suspend => st
  end.

(** A platform call under an oracle that tells which calls throw. *)
Definition call (throws : Call → bool) (c : Call) : M State unit :=
  if throws c then throw else modify (perform c).

(** The platform on which no call of the teardown throws. *)
Definition reliable : Call → bool := λ _, false.

(** [await sessionPromiseRef.current; session.close()] *)
Definition await_close (throws : Call → bool) (p : SessionPromise)
  : M State unit :=
  match p with
  | Connected c => call throws (Close c)
  | Failed => throw
  end.

(** [navigator.mediaDevices.getUserMedia(...)], granted. *)
Definition getUserMedia (st : State) : nat * State :=
  let d := devices st in
  (created d,
   set_devices {| mics := mics d ∪ {[created d]}; conns := conns d;
                  procs := procs d; created := S (created d) |} st).

(** [ai.live.connect(...)], acknowledged: the connection is open. *)
Definition connect (st : State) : nat * State :=
  let d := devices st in
  (created d,
   set_devices {| mics := mics d; conns := conns d ∪ {[created d]};
                  procs := procs d; created := S (created d) |} st).

(** [createScriptProcessor(4096, 1, 1)], connected to the stream. *)
Definition createScriptProcessor (st : State) : nat * State :=
  let d := devices st in
  (created d,
   set_devices {| mics := mics d; conns := conns d;
                  procs := procs d ∪ {[created d]};
                  created := S (created d) |} st).

(** The steps that closing a settled session promise performs: none
    when the promise was rejected or [close()] throws. *)
Definition closes (throws : Call → bool) (sp : SessionPromise) : list Phase :=
  match sp with
  | Connected c => if throws (Close c) then [] else [CloseConnection]
  | Failed => []
  end.

(** The devices that the refs name. *)
Definition held (r : option nat) : gset nat :=
  match r with Some x => {[x]} | None => ∅ end.

Definition connection_of (r : option SessionPromise) : gset nat :=
  match r with Some (Connected c) => {[c]} | _ => ∅ end.

(** Every live device is the one its ref names. *)
Definition accounted (st : State) : Prop :=
  mics (devices st) = held (streamRef st)
  ∧ conns (devices st) = connection_of (sessionPromiseRef st)
  ∧ procs (devices st) = held (scriptProcessorRef st).

(** No live device is beyond the one its ref names. *)
Definition within_refs (st : State) : Prop :=
  mics (devices st) ⊆ held (streamRef st)
  ∧ conns (devices st) ⊆ connection_of (sessionPromiseRef st)
  ∧ procs (devices st) ⊆ held (scriptProcessorRef st).

(** No device is live. *)
Definition cleared (st : State) : Prop :=
  mics (devices st) = ∅ ∧ conns (devices st) = ∅ ∧ procs (devices st) = ∅.

(** A surface that is not live holds nothing. *)
Definition idle_clean (st : State) : Prop :=
  isLive st = false →
  streamRef st = None ∧ sessionPromiseRef st = None
  ∧ scriptProcessorRef st = None.

(** At most one microphone stream and one connection are live. *)
Definition single_session (st : State) : Prop :=
  (size (mics (devices st)) ≤ 1)%nat ∧ (size (conns (devices st)) ≤ 1)%nat.

(** Exactly one microphone stream and one connection are live. *)
Definition one_session (st : State) : Prop :=
  size (mics (devices st)) = 1%nat ∧ size (conns (devices st)) = 1%nat.

(** The platform on which disconnecting a processor throws. *)
Definition faulty_disconnect : Call → bool :=
  λ c, match c with Disconnect _ => true | _ => false end.

(** A surface in the middle of a session: every resource is held. *)
Definition active (st : State) : Prop :=
  is_Some (scriptProcessorRef st) ∧ is_Some (streamRef st)
  ∧ is_Some (sessionPromiseRef st).

End Lifecycle.

(** ** The assistant view with playback (src/services/geminiService.ts) *)

Module LiveView.
Import Js Codec Live Playback Transport Eff Lifecycle.

(** [decodeAudioData]:
    [new Int16Array(data.buffer, data.byteOffset, data.byteLength / 2)]
    takes the whole elements and leaves a trailing odd byte out. *)
Definition decodeAudioData (data : list Z) (sampleRate : positive)
    (numChannels : nat) : option AudioBuffer :=
  fill_buffer (int16_view data).1 sampleRate numChannels.

(** The interrupted branch of [onmessage]:
<<
  sources.current.forEach(s => { try { s.stop(); } catch(e) {} });
  sources.current.clear();
  nextStartTime.current = 0;
>> *)
Definition interrupt (st : Scheduler) : Scheduler :=
  {| nextStartTime := 0; sources := []; nodes := stop_all st |}.

Definition step (st : Scheduler) (e : Playback.Event) : Scheduler :=
  match e with
  | Chunk now buffer => schedule now buffer st
  | SourceEnded s => on_ended s st
  | Interrupted => interrupt st
  end.

(** [handleAssistantToolCall]: the result is ["ok"] whatever the tool,
    and the response goes out when there is a session promise. *)
Definition handleAssistantToolCall (fc : FunctionCall)
    (sessionPromiseRef : option Connection) : option Connection :=
  let result := lit "ok" in
  match sessionPromiseRef with
  | Some c => Some (then_send (ToolResponse (fc_id fc) (fc_name fc) result) c)
  | None => None
  end.

(** What [onmessage] works on: the session promise, the scheduler and
    the assembler. *)
Record Inbound := {
  in_session : option Connection;
  in_playback : Scheduler;
  in_transcript : Transcript.Assembler
}.

(** [onmessage], [now] being [outCtx.currentTime]: the tool calls, the
    audio, the transcriptions and the turn end, the interruption, in
    this order; an exception of the audio branch ends the handler. *)
Definition onmessage (now : Q) (message : LiveServerMessage) (s : Inbound)
  : Inbound :=
  let session :=
    match toolCall message with
    | Some functionCalls =>
        foldl (λ c fc, handleAssistantToolCall fc c) (in_session s)
          functionCalls
    | None => in_session s
    end in
  match on_audio decodeAudioData now (inlineData message) (in_playback s) with
  | (Thrown, playback) =>
      {| in_session := session; in_playback := playback;
         in_transcript := in_transcript s |}
  | (Returned _, playback) =>
      {| in_session := session;
         in_playback := if interrupted message then interrupt playback
                        else playback;
         in_transcript := Transcript.on_message message (in_transcript s) |}
  end.

(** [stopLiveSession]:
<<
  setStatusText("STOPPING...");
  sources.current.forEach(s => { try { s.stop(); } catch(e) {} });
  sources.current.clear();
  nextStartTime.current = 0;
  if (scriptProcessorRef.current) {
    scriptProcessorRef.current.disconnect();
    scriptProcessorRef.current = null;
  }
  if (streamRef.current) {
    streamRef.current.getTracks().forEach(track => track.stop());
    streamRef.current = null;
  }
  if (sessionPromiseRef.current) {
    try {
      const session = await sessionPromiseRef.current;
      session.close();
    } catch (e) {}
    sessionPromiseRef.current = null;
  }
  setIsLive(false);
  setStatusText("MIRRORING INACTIVE");
>> *)
Definition stopLiveSession (throws : Call → bool) : M State unit :=
  modify (set_status Stopping);;
  modify (λ st, log ClearPlayback (set_playback (interrupt (playback st)) st));;
  (p ← gets scriptProcessorRef;
   match p with
   | Some p => call throws (Disconnect p);; modify (set_processor None)
   | None => mret tt
   end);;
  (s ← gets streamRef;
   match s with
   | Some s => call throws (TrackStop s);; modify (set_stream None)
   | None => mret tt
   end);;
  (sp ← gets sessionPromiseRef;
   match sp with
   | Some sp => try_catch (await_close throws sp);; modify (set_session None)
   | None => mret tt
   end);;
  modify (set_isLive false);;
  modify (λ st, log ToClosed (set_status Inactive st)).

(** [startLiveSession], once it has settled; [mic] tells whether
    [getUserMedia] granted the microphone.  It is the function of
    src/components/AssistantView.tsx (see [AssistantView] below) with
    an output context and tools besides. *)
Definition startLiveSession (mic : bool) (st : State) : State :=
  let st := set_status Initializing (set_isLive true st) in
  if mic then
    let '(stream, st) := getUserMedia st in
    let st := set_status Connecting (set_stream (Some stream) st) in
    let '(connection, st) := connect st in
    let st := set_status Active st in
    let '(scriptProcessor, st) := createScriptProcessor st in
    let st := set_processor (Some scriptProcessor) st in
    set_session (Some (Connected connection)) st
  else
    set_status Inactive (set_isLive false st).

End LiveView.

(** ** The assistant view without playback (src/components/AssistantView.tsx) *)

Module AssistantView.
Import Js Codec Live Transport Eff Lifecycle.

(** [stopLiveSession]: the processor, the stream, the session (in a
    try), the input context (in a try), then the flags. *)
Definition stopLiveSession (throws : Call → bool) : M State unit :=
  modify (set_status Stopping);;
  (p ← gets scriptProcessorRef;
   match p with
   | Some p => call throws (Disconnect p);; modify (set_processor None)
   | None => mret tt
   end);;
  (s ← gets streamRef;
   match s with
   | Some s => call throws (TrackStop s);; modify (set_stream None)
   | None => mret tt
   end);;
  (sp ← gets sessionPromiseRef;
   match sp with
   | Some sp => try_catch (await_close throws sp);; modify (set_session None)
   | None => mret tt
   end);;
  try_catch (call throws Suspend);;
  modify (set_isLive false);;
  modify (λ st, log ToClosed (set_status Inactive st)).

(** [startLiveSession], once it has settled; [mic] tells whether
    [getUserMedia] granted the microphone.
<<
  try {
    setIsLive(true); setStatusText("INITIALIZING...");
    const stream = await navigator.mediaDevices.getUserMedia(...);
    streamRef.current = stream;
    setStatusText("CONNECTING...");
    const sessionPromise = ai.live.connect({ ..., callbacks: {
      onopen: () => {
        setStatusText("ACTIVE");
        const scriptProcessor = ...createScriptProcessor(4096, 1, 1);
        scriptProcessorRef.current = scriptProcessor;
        ...
      }, ... } });
    sessionPromiseRef.current = sessionPromise;
  } catch (err) {
    setIsLive(false); setStatusText("MIRRORING INACTIVE");
  }
>>
    Nothing in it looks at the session that may be running. *)
Definition startLiveSession (mic : bool) (st : State) : State :=
  let st := set_status Initializing (set_isLive true st) in
  if mic then
    let '(stream, st) := getUserMedia st in
    let st := set_status Connecting (set_stream (Some stream) st) in
    let '(connection, st) := connect st in
    let st := set_status Active st in
    let '(scriptProcessor, st) := createScriptProcessor st in
    let st := set_processor (Some scriptProcessor) st in
    set_session (Some (Connected connection)) st
  else
    set_status Inactive (set_isLive false st).

(** [toggleLiveMode]: [if (isLive) stopLiveSession(); else
    startLiveSession();] *)
Definition toggleLiveMode (mic : bool) (st : State) : State :=
  if isLive st then exec (stopLiveSession reliable) st
  else startLiveSession mic st.

Definition toggles (mics : list bool) (st : State) : State :=
  foldl (λ st mic, toggleLiveMode mic st) st mics.

End AssistantView.

(** ** The mini companion (src/App.tsx) *)

Module MiniCompanion.
Import Js Codec Live Playback Transport Eff Lifecycle.

(** [decodeAudioData]: [new Int16Array(data.buffer)] throws RangeError
    on a buffer of odd byte length. *)
Definition decodeAudioData (data : list Z) (sampleRate : positive)
    (numChannels : nat) : option AudioBuffer :=
  match int16_view data with
  | (a, []) => fill_buffer a sampleRate numChannels
  | (_, _ :: _) => None
  end.

(** The interrupted branch of [onmessage]:
<<
  sources.current.forEach(s => s.stop());
  sources.current.clear();
  nextStartTime.current = 0;
>>
    An exception of [stop()] leaves the handler, and neither the set
    nor the clock is reset. *)
Definition interrupt : M Scheduler unit :=
  λ st, match stop_each (nodes st) (sources st) with
        | (ns, true) =>
            (Returned tt, {| nextStartTime := 0; sources := []; nodes := ns |})
        | (ns, false) =>
            (Thrown, {| nextStartTime := nextStartTime st;
                        sources := sources st; nodes := ns |})
        end.

Definition step (st : Scheduler) (e : Playback.Event) : Scheduler :=
  match e with
  | Chunk now buffer => schedule now buffer st
  | SourceEnded s => on_ended s st
  | Interrupted => exec interrupt st
  end.

(** The voice transcription on display: the last user fragment, the
    assistant fragments appended, both emptied at turn-complete.  The
    mini companion keeps no log of voice turns. *)
Record VoiceTranscription := { vt_user : jsstring; vt_ai : jsstring }.

(** [transcription?.text || '']: a transcription without text shows as
    the empty text. *)
Definition shown_text (t : Transcription) : jsstring :=
  default [] (tr_text t).

Definition on_transcription (m : LiveServerMessage) (v : VoiceTranscription)
  : VoiceTranscription :=
  let v := match inputTranscription m with
           | Some t => {| vt_user := shown_text t; vt_ai := vt_ai v |}
           | None => v end in
  let v := match outputTranscription m with
           | Some t => {| vt_user := vt_user v;
                          vt_ai := vt_ai v ++ shown_text t |}
           | None => v end in
  if turnComplete m then {| vt_user := []; vt_ai := [] |} else v.

(** *** Tool calls *)

Inductive View :=
| DASHBOARD | NOTES_GENERATOR | QUIZ | HISTORY | PLANNER | POMODORO
| AI_ASSISTANT.

(** The view on screen, the motivation requests made, and
    [sessionPromise.current]. *)
Record Companion := {
  view : View;
  motivations : nat;
  sessionPromise : option Connection
}.

Definition setView (v : View) : M Companion unit :=
  modify (λ a, {| view := v; motivations := motivations a;
                  sessionPromise := sessionPromise a |}).

(** [handleQuickAction('MOTIVATION')] *)
Definition request_motivation : M Companion unit :=
  modify (λ a, {| view := view a; motivations := S (motivations a);
                  sessionPromise := sessionPromise a |}).

(** [fc.args.key] inside a template literal: TypeError when [fc.args]
    is undefined, the text [undefined] when the key is absent. *)
Definition arg (fc : FunctionCall) (key : jsstring) : M Companion jsstring :=
  match fc_args fc with
  | Some args => mret (default (lit "undefined") (args !! key))
  | None => throw
  end.

Definition named (fc : FunctionCall) (name : jsstring) : bool :=
  bool_decide (fc_name fc = name).

(** The [switch (fc.name)] of [handleAssistantToolCall]. *)
Definition dispatch (fc : FunctionCall) : M Companion jsstring :=
  if named fc (lit "generate_notes") then
    setView NOTES_GENERATOR;;
    topic ← arg fc (lit "topic");
    mret (lit "Navigated to notes generator. Topic identified: " ++ topic
          ++ lit ". Starting notes engine...")
  else if named fc (lit "start_quiz") then
    setView QUIZ;;
    topic ← arg fc (lit "topic");
    mret (lit "Starting a revision session for " ++ topic ++ lit ". Get ready!")
  else if named fc (lit "show_history") then
    setView HISTORY;; mret (lit "Opening your academic history now.")
  else if named fc (lit "set_pomodoro") then
    setView POMODORO;; mret (lit "Switching to focus mode.")
  else if named fc (lit "get_motivation") then
    request_motivation;; mret (lit "Providing motivation boost.")
  else if named fc (lit "solve_doubt") then
    concept ← arg fc (lit "concept");
    mret (lit "Searching for a simplified explanation for " ++ concept
          ++ lit "...")
  else if named fc (lit "go_home") then
    setView DASHBOARD;; mret (lit "Returning to the main dashboard.")
  else
    mret (lit "Feature not implemented via voice yet.").

(** [sessionPromise.current.then((session) => {
      session.sendToolResponse({ functionResponses:
        { id: fc.id, name: fc.name, response: { result } } }) })] *)
Definition respond (fc : FunctionCall) (result : jsstring) : M Companion unit :=
  p ← gets sessionPromise;
  match p with
  | Some c =>
      modify (λ a, {| view := view a; motivations := motivations a;
                      sessionPromise :=
                        Some (then_send
                                (ToolResponse (fc_id fc) (fc_name fc) result)
                                c) |})
  | None => throw
  end.

Definition handleAssistantToolCall (fc : FunctionCall) : M Companion unit :=
  result ← dispatch fc;
  respond fc result.

(** The names the [switch] knows. *)
Definition recognized (name : jsstring) : Prop :=
  name ∈ [lit "generate_notes"; lit "start_quiz"; lit "show_history";
          lit "set_pomodoro"; lit "get_motivation"; lit "solve_doubt";
          lit "go_home"].

(** The tools whose answer quotes an argument. *)
Definition reads_args (name : jsstring) : Prop :=
  name ∈ [lit "generate_notes"; lit "start_quiz"; lit "solve_doubt"].

(** The results by which the repository's handlers say that a tool is
    not supported. *)
Definition unsupported_style (result : jsstring) : Prop :=
  result ∈ [lit "Feature not implemented via voice yet."; lit "Unknown tool."].

(** What the session has been sent. *)
Definition outbox (a : Companion) : list Outbound :=
  match sessionPromise a with Some c => sent c | None => [] end.

(** What [onmessage] works on: the companion, the scheduler and the
    transcription on display. *)
Record Inbound := {
  in_companion : Companion;
  in_playback : Scheduler;
  in_transcription : VoiceTranscription
}.

(** [onmessage], [now] being [outCtx.currentTime]: the tool calls (an
    exception in one handler stays in its promise), the audio, the
    transcription, the interruption, in this order; an exception of
    the audio branch ends the handler. *)
Definition onmessage (now : Q) (message : LiveServerMessage) (s : Inbound)
  : Inbound :=
  let companion :=
    match toolCall message with
    | Some functionCalls =>
        foldl (λ a fc, exec (handleAssistantToolCall fc) a) (in_companion s)
          functionCalls
    | None => in_companion s
    end in
  match on_audio decodeAudioData now (inlineData message) (in_playback s) with
  | (Thrown, playback) =>
      {| in_companion := companion; in_playback := playback;
         in_transcription := in_transcription s |}
  | (Returned _, playback) =>
      {| in_companion := companion;
         in_playback := if interrupted message then exec interrupt playback
                        else playback;
         in_transcription := on_transcription message (in_transcription s) |}
  end.

(** *** Lifecycle *)

(** [stopVoiceSession]:
<<
  if (sessionPromise.current) {
    sessionPromise.current.then((s: any) => s.close());
  }
  if (streamRef.current) {
    streamRef.current.getTracks().forEach(t => t.stop());
  }
  if ((window as any)._scriptProcessor) {
    (window as any)._scriptProcessor.disconnect();
    (window as any)._scriptProcessor = null;
  }
  setIsVoiceActive(false);
>>
    The reaction that closes the session runs once the function has
    run, whether it returned or threw; nothing touches the playback
    state, and the stream and session refs stay. *)
Definition stop_now (throws : Call → bool) : M State unit :=
  (s ← gets streamRef;
   match s with
   | Some s => call throws (TrackStop s)
   | None => mret tt
   end);;
  (p ← gets scriptProcessorRef;
   match p with
   | Some p => call throws (Disconnect p);; modify (set_processor None)
   | None => mret tt
   end);;
  modify (λ st, log ToClosed (set_isLive false st)).

Definition close_later (throws : Call → bool) (p : option SessionPromise)
  : M State unit :=
  match p with
  | Some (Connected c) => try_catch (call throws (Close c))
  | _ => mret tt
  end.

Definition stopVoiceSession (throws : Call → bool) (st : State) : State :=
  exec (close_later throws (sessionPromiseRef st)) (exec (stop_now throws) st).

(** [startVoiceSession], once it has settled:
<<
  try {
    const stream = await navigator.mediaDevices.getUserMedia({ audio: true });
    streamRef.current = stream;
    sessionPromise.current = ai.live.connect({ ..., callbacks: {
      onopen: () => {
        setIsVoiceActive(true);
        const scriptProcessor = ...createScriptProcessor(4096, 1, 1);
        ...
        (window as any)._scriptProcessor = scriptProcessor;
      }, ... } });
  } catch (err) { console.error(...) }
>> *)
Definition startVoiceSession (mic : bool) (st : State) : State :=
  if mic then
    let '(stream, st) := getUserMedia st in
    let st := set_stream (Some stream) st in
    let '(connection, st) := connect st in
    let st := set_session (Some (Connected connection)) st in
    let st := set_isLive true st in
    let '(scriptProcessor, st) := createScriptProcessor st in
    set_processor (Some scriptProcessor) st
  else st.

(** The voice session effect and its cleanup:
<<
  useEffect(() => {
    if (isAssistantOpen && assistantMode === 'VOICE' && !isFullAssistantActive) {
      startVoiceSession();
    } else {
      stopVoiceSession();
    }
    return () => stopVoiceSession();
  }, [isAssistantOpen, assistantMode, state.view]);
>>
    On a change of the dependencies the cleanup of the last run comes
    first, then the effect. *)
Definition effect (voice mic : bool) (st : State) : State :=
  if voice then startVoiceSession mic st else stopVoiceSession reliable st.

Definition rerun (st : State) (r : bool * bool) : State :=
  effect r.1 r.2 (stopVoiceSession reliable st).

(** The mount, then the changes of the dependencies. *)
Definition renders (first : bool * bool) (rs : list (bool * bool)) : State :=
  foldl rerun (effect first.1 first.2 init) rs.

End MiniCompanion.

(** ** A session in full swing *)

Module Scenario.
Import Codec Playback Lifecycle.

(** A buffer of one second. *)
Definition second : AudioBuffer :=
  {| ab_length := 2; ab_sampleRate := 2; ab_channels := [] |}.

(** A started session of the assistant view that holds its microphone,
    its processor and its connection, with one chunk of audio
    scheduled. *)
Definition in_flight : State :=
  set_playback (play [(0%Q, second)] Playback.init)
    (LiveView.startLiveSession true init).

(** The same for the mini companion. *)
Definition companion_in_flight : State :=
  set_playback (play [(0%Q, second)] Playback.init)
    (MiniCompanion.startVoiceSession true init).

End Scenario.

(** ** The round trip of a frame *)

Module RoundTrip.
Import Js Codec.

(** [decodeAudioData(decode(createBlob(samples).data), ctx, 24000, 1)] *)
Definition round_trip
    (decodeAudioData : list Z → positive → nat → option AudioBuffer)
    (samples : list Q) : option AudioBuffer :=
  b ← createBlob samples;
  bytes ← decode (data b);
  decodeAudioData bytes 24000%positive 1%nat.

(** Within the 16-bit quantization error. *)
Definition within_quantum (x y : Q) : Prop :=
  (Qabs (y - x) <= 1 # 32768)%Q.

(** The frame of [samples] decodes, with either decoder, to one channel
    that is [samples] within the quantization error. *)
Definition round_trips (samples : list Q) : Prop :=
  ∃ buffer out,
    round_trip MiniCompanion.decodeAudioData samples = Some buffer
    ∧ round_trip LiveView.decodeAudioData samples = Some buffer
    ∧ ab_channels buffer = [out]
    ∧ Forall2 within_quantum samples out.

End RoundTrip.

(** ** Further functions of the same files *)

(** *** Speech: [generateSpeech] and [handleSpeakText] *)

Module Speech.
Import Js Codec Transcript.

(** [generateSpeech] (src/services/geminiService.ts):
    [text.length > 500 ? text.substring(0, 500) + "..." : text] *)
Definition safeText (text : jsstring) : jsstring :=
  if (500 <? length text)%nat then take 500 text ++ lit "..." else text.

(** [err?.message || "Internal Service Error"] *)
Definition error_text (message : jsstring) : jsstring :=
  if truthy message then message else lit "Internal Service Error".

(** [handleSpeakText] (src/App.tsx), from the answer of [generateSpeech]
    on; [message] is the message of the exception, if one is thrown.
<<
  try {
    const base64Audio = await generateSpeech(text);
    if (base64Audio) {
      const audioBuffer = await decodeAudioData(decode(base64Audio), ttsCtx, 24000, 1);
      ...
      source.start();
      return audioBuffer.duration;
    }
  } catch (err: any) {
    setChatHistory(prev => [...prev, { role: 'ai',
      text: "(Voice error: " + (err?.message || "Internal Service Error") + ")" }]);
  }
  return 0;
>> *)
Definition handleSpeakText (message : jsstring) (base64Audio : option jsstring)
    (chatHistory : list Message) : Q * list Message :=
  match base64Audio with
  | Some ((_ :: _) as b) =>
      match decode b
            ≫= (λ bytes, MiniCompanion.decodeAudioData bytes 24000%positive 1%nat) with
      | Some audioBuffer => (duration audioBuffer, chatHistory)
      | None =>
          (0%Q,
           chatHistory
           ++ [{| role := ai;
                  text := lit "(Voice error: " ++ error_text message ++ lit ")" |}])
      end
  | _ => (0%Q, chatHistory)
  end.

End Speech.

(** *** The written chat of the mini companion: [handleSendChat] *)

Module Chat.
Import Js Transcript.

Record Chat := {
  chatMsg : jsstring;
  chatHistory : list Message;
  chatLoading : bool
}.

Definition apology : jsstring :=
  lit "I'm having a bit of trouble connecting. Let me try again later.".

(** [handleSendChat] (src/App.tsx), once [chatWithAssistant] has
    settled; [response] is its answer, [None] when it threw.
<<
  if (!chatMsg.trim()) return;
  const userMsg = chatMsg;
  setChatMsg('');
  setChatHistory(prev => [...prev, { role: 'user', text: userMsg }]);
  setChatLoading(true);
  try {
    const response = await chatWithAssistant(userMsg, ...);
    setChatHistory(prev => [...prev, { role: 'ai', text: response }]);
  } catch (err) {
    setChatHistory(prev => [...prev, { role: 'ai', text: "I'm having ..." }]);
  } finally {
    setChatLoading(false);
  }
>> *)
Definition handleSendChat (response : option jsstring) (c : Chat) : Chat :=
  if truthy (trim (chatMsg c)) then
    {| chatMsg := [];
       chatHistory :=
         (chatHistory c ++ [{| role := user; text := chatMsg c |}])
         ++ [{| role := ai; text := default apology response |}];
       chatLoading := false |}
  else c.

(** Typing in the field, and sending. *)
Inductive Input :=
| Typed (text : jsstring)
| Sent (response : option jsstring).

Definition step (c : Chat) (i : Input) : Chat :=
  match i with
  | Typed text =>
      {| chatMsg := text; chatHistory := chatHistory c;
         chatLoading := chatLoading c |}
  | Sent response => handleSendChat response c
  end.

(** The sends that the guard lets through, each with the text in the
    field at that moment; [field] is the text in the field at the
    start. *)
Fixpoint exchanges (field : jsstring) (inputs : list Input)
  : list (jsstring * option jsstring) :=
  match inputs with
  | [] => []
  | Typed text :: r => exchanges text r
  | Sent response :: r =>
      if truthy (trim field) then (field, response) :: exchanges [] r
      else exchanges field r
  end.

Definition entries (e : jsstring * option jsstring) : list Message :=
  [{| role := user; text := e.1 |};
   {| role := ai; text := default apology e.2 |}].

End Chat.

(** *** The application state and its reducers (src/App.tsx) *)

Module AppState.
Import MiniCompanion.

Inductive Theme := LIGHT | DARK.

Section state.
Context {Note QuizAttempt StudyPlan : Type}.

Record AppState := {
  view : View;
  theme : Theme;
  notes : list Note;
  quizHistory : list QuizAttempt;
  studyPlans : list StudyPlan;
  streak : Z;
  lastActive : Z
}.

(** [theme: prev.theme === Theme.LIGHT ? Theme.DARK : Theme.LIGHT] *)
Definition toggleTheme (s : AppState) : AppState :=
  {| view := view s;
     theme := match theme s with LIGHT => DARK | DARK => LIGHT end;
     notes := notes s; quizHistory := quizHistory s;
     studyPlans := studyPlans s; streak := streak s;
     lastActive := lastActive s |}.

Definition setView (v : View) (s : AppState) : AppState :=
  {| view := v; theme := theme s; notes := notes s;
     quizHistory := quizHistory s; studyPlans := studyPlans s;
     streak := streak s; lastActive := lastActive s |}.

(** [{ ...prev, notes: [...prev.notes, note], view: View.DASHBOARD }] *)
Definition handleSaveNote (note : Note) (s : AppState) : AppState :=
  {| view := DASHBOARD; theme := theme s; notes := notes s ++ [note];
     quizHistory := quizHistory s; studyPlans := studyPlans s;
     streak := streak s; lastActive := lastActive s |}.

(** [{ ...prev, quizHistory: [...prev.quizHistory, attempt] }] *)
Definition handleRecordQuizResult (attempt : QuizAttempt) (s : AppState)
  : AppState :=
  {| view := view s; theme := theme s; notes := notes s;
     quizHistory := quizHistory s ++ [attempt]; studyPlans := studyPlans s;
     streak := streak s; lastActive := lastActive s |}.

(** [{ ...prev, studyPlans: [...prev.studyPlans, plan], view: View.DASHBOARD }] *)
Definition handleSavePlan (plan : StudyPlan) (s : AppState) : AppState :=
  {| view := DASHBOARD; theme := theme s; notes := notes s;
     quizHistory := quizHistory s; studyPlans := studyPlans s ++ [plan];
     streak := streak s; lastActive := lastActive s |}.

Inductive Action :=
| ToggleTheme
| SetView (v : View)
| SaveNote (note : Note)
| RecordQuizResult (attempt : QuizAttempt)
| SavePlan (plan : StudyPlan).

Definition step (s : AppState) (a : Action) : AppState :=
  match a with
  | ToggleTheme => toggleTheme s
  | SetView v => setView v s
  | SaveNote note => handleSaveNote note s
  | RecordQuizResult attempt => handleRecordQuizResult attempt s
  | SavePlan plan => handleSavePlan plan s
  end.

Definition run (actions : list Action) (s : AppState) : AppState :=
  foldl step s actions.

(** What a sequence of actions saves, in order. *)
Definition saved_notes (actions : list Action) : list Note :=
  actions ≫= λ a, match a with SaveNote n => [n] | _ => [] end.

Definition saved_attempts (actions : list Action) : list QuizAttempt :=
  actions ≫= λ a, match a with RecordQuizResult q => [q] | _ => [] end.

Definition saved_plans (actions : list Action) : list StudyPlan :=
  actions ≫= λ a, match a with SavePlan p => [p] | _ => [] end.

Definition is_toggle (a : Action) : bool :=
  match a with ToggleTheme => true | _ => false end.

Definition toggles (actions : list Action) : nat :=
  length (filter (λ a, is_toggle a = true) actions).

End state.
Arguments AppState : clear implicits.
Arguments Action : clear implicits.

End AppState.

(** *** The subjects of the study plan form
        (src/components/AssistantView.tsx, [StudyPlanGenerator]) *)

Module Planner.
Import Js.

Record Form := {
  subjectInput : jsstring;
  subjects : list jsstring
}.

Definition empty : Form := {| subjectInput := []; subjects := [] |}.

(** [addSubject]:
<<
  if (subjectInput.trim()) {
    setSubjects([...subjects, subjectInput.trim()]);
    setSubjectInput('');
  }
>> *)
Definition addSubject (f : Form) : Form :=
  if truthy (trim (subjectInput f)) then
    {| subjectInput := []; subjects := subjects f ++ [trim (subjectInput f)] |}
  else f.

(** [setSubjects(subjects.filter((_, idx) => idx !== i))] *)
Definition removeSubject (i : nat) (f : Form) : Form :=
  {| subjectInput := subjectInput f; subjects := delete i (subjects f) |}.

Definition setSubjectInput (text : jsstring) (f : Form) : Form :=
  {| subjectInput := text; subjects := subjects f |}.

(** [handleGenerate] goes on only with a subject:
    [if (subjects.length === 0) return;] *)
Definition generates (f : Form) : bool :=
  negb (length (subjects f) =? 0)%nat.

Inductive Edit :=
| Typed (text : jsstring)
| Add
| Remove (i : nat).

Definition step (f : Form) (e : Edit) : Form :=
  match e with
  | Typed text => setSubjectInput text f
  | Add => addSubject f
  | Remove i => removeSubject i f
  end.

Definition run (edits : list Edit) : Form := foldl step empty edits.

End Planner.

(** *** The callbacks of the connection and the condition of the voice
        effect *)

Module Remote.
Import Eff Lifecycle MiniCompanion.

(** [onclose] of the assistant views:
    [setIsLive(false); setStatusText("MIRRORING INACTIVE");] *)
Definition onclose (st : State) : State :=
  set_status Inactive (set_isLive false st).

(** [onerror] of the assistant views: [setError(...); stopLiveSession();] *)
Definition onerror (throws : Call → bool) (st : State) : State :=
  exec (AssistantView.stopLiveSession throws) st.

(** A surface that is live holds all three resources. *)
Definition live_holds (st : State) : Prop :=
  isLive st = true →
  is_Some (streamRef st) ∧ is_Some (scriptProcessorRef st)
  ∧ ∃ c, sessionPromiseRef st = Some (Connected c).

(** The platform numbers its objects in the order of creation. *)
Definition numbered (st : State) : Prop :=
  ∀ x, x ∈ mics (devices st) ∪ conns (devices st) ∪ procs (devices st) →
       (x < created (devices st))%nat.





End Remote.

(** *** The assistant view from its mount on *)

Module Mounted.
Import Js Live Transcript Lifecycle.

(** The assistant view while it is mounted: its session and its
    assembler.  [userTextBuffer] and [aiTextBuffer] are refs of the
    component, created empty with it ([useRef('')]); [stopLiveSession],
    [startLiveSession], [onclose] and [onerror] name neither them nor
    the partial texts nor the log, so that a session finds them as the
    last one left them. *)
Record View := { session : State; transcript : Assembler }.

Definition mount : View :=
  {| session := Lifecycle.init; transcript := Transcript.init |}.

(** What happens to the view: a message of the connection (in
    src/services/geminiService.ts, one whose audio branch returns),
    [toggleLiveMode], and the callbacks [onclose] and [onerror]. *)
Inductive Happening :=
| Message (m : LiveServerMessage)
| Toggle (mic : bool)
| Closed
| Errored.

Definition step (v : View) (h : Happening) : View :=
  match h with
  | Message m =>
      {| session := session v; transcript := on_message m (transcript v) |}
  | Toggle mic =>
      {| session := AssistantView.toggleLiveMode mic (session v);
         transcript := transcript v |}
  | Closed =>
      {| session := Remote.onclose (session v); transcript := transcript v |}
  | Errored =>
      {| session := Remote.onerror reliable (session v);
         transcript := transcript v |}
  end.

Definition life (hs : list Happening) : View := foldl step mount hs.

(** The events of the messages among the happenings, in order. *)
Definition heard (hs : list Happening) : list Event :=
  hs ≫= λ h, match h with Message m => events_of m | _ => [] end.

End Mounted.

(** *** The partial transcript of a turn *)

Module Partial.
Import Js Live Transcript.

(** The events since the last turn-complete. *)
Fixpoint pending_from (cur : list Event) (evs : list Event) : list Event :=
  match evs with
  | [] => cur
  | TurnComplete :: r => pending_from [] r
  | e :: r => pending_from (cur ++ [e]) r
  end.

Definition pending (evs : list Event) : list Event := pending_from [] evs.

(** The last user fragment among events, [old] when there is none. *)
Fixpoint last_user (old : jsstring) (turn : list Event) : jsstring :=
  match turn with
  | [] => old
  | PartialUser t :: r => last_user t r
  | _ :: r => last_user old r
  end.

(** The transcription of the mini companion over a sequence of events. *)
Definition shown (evs : list Event) : MiniCompanion.VoiceTranscription :=
  foldl (λ v e, MiniCompanion.on_transcription (message_of e) v)
    {| MiniCompanion.vt_user := []; MiniCompanion.vt_ai := [] |} evs.

End Partial.

(** *** What the scheduler keeps and what the connection has sent *)

Module Tracking.
Import Playback.

(** The set holds each source once, and holds exactly the sources that
    are scheduled or playing. *)
Definition tracked (st : Scheduler) : Prop :=
  NoDup (sources st)
  ∧ ∀ s, s ∈ sources st ↔ ∃ n, nodes st !! s = Some n ∧ state n = Started.

(** Every chunk arrives before the audio scheduled so far has played
    out. *)
Definition timely (chunks : list (Q * Codec.AudioBuffer)) (st : Scheduler)
  : Prop :=
  ∀ i now buffer, chunks !! i = Some (now, buffer) →
    (now <= nextStartTime (play (take i chunks) st))%Q.

End Tracking.

Module Settled.
Import Js Live Transport.

(** Nothing is sent before the promise is fulfilled, and a rejected
    promise keeps no reaction. *)
Definition quiet (c : Connection) : Prop :=
  match promise c with
  | Pending => sent c = []
  | Rejected => sent c = [] ∧ reactions c = []
  | Fulfilled => True
  end.

(** The response of the assistant view to a function call. *)
Definition ok_response (fc : FunctionCall) : Outbound :=
  ToolResponse (fc_id fc) (fc_name fc) (lit "ok").

End Settled.

(* ===================================================================== *)
(** * Part II: properties *)
(* ===================================================================== *)

(** ** Codec *)

Section codec.
Import Js Codec RoundTrip.
(** The platform functions on known values. *)
Example base64_known :
  btoa (lit "Man") = Some (lit "TWFu")
  ∧ btoa (lit "Ma") = Some (lit "TWE=")
  ∧ btoa (lit "M") = Some (lit "TQ==")
  ∧ btoa [256] = None
  ∧ atob (lit "TWFu") = Some (lit "Man")
  ∧ atob (lit "TWE=") = Some (lit "Ma")
  ∧ atob (lit "TQ==") = Some (lit "M")
  ∧ atob (lit "TQ") = Some (lit "M")
  ∧ atob (lit " T Q = = ") = Some (lit "M")
  ∧ atob (lit "TQ=") = None
  ∧ atob (lit "T") = None
  ∧ atob (lit "TQ*=") = None.
Proof. repeat split; by vm_compute. Qed.

Example int16_known :
  ToInt16 32767 = 32767 ∧ ToInt16 32768 = -32768 ∧ ToInt16 (-32769) = 32767
  ∧ ToInt16 65536 = 0
  ∧ truncate (3 # 2) = 1 ∧ truncate (-3 # 2) = -1 ∧ truncate (-1 # 2) = 0
  ∧ store_int16 ((1 # 2) * 32768) = 16384
  ∧ store_int16 ((-1) * 32768) = -32768
  ∧ int16_bytes (-2) = [254; 255]
  ∧ int16_of_bytes 254 255 = -2.
Proof. repeat split; by vm_compute. Qed.

Example trim_known :
  trim (lit "  a b  ") = lit "a b"
  ∧ trim [9; 10; 160; 97; 8232; 65279] = [97]
  ∧ trim (lit "   ") = []
  ∧ trim [8203; 97] = [8203; 97].
Proof. repeat split; by vm_compute. Qed.

Lemma b64_index_char s : 0 <= s < 64 → b64_index (b64_char s) = Some s.
Proof.
  intros Hs. unfold b64_char, b64_index.
  repeat (case_match; try lia); f_equal; try lia.
  all: repeat match goal with
       | H : _ && _ = true |- _ => apply andb_true_iff in H as [? ?]
       | H : _ && _ = false |- _ => apply andb_false_iff in H as [?|?]
       end; lia.
Qed.

Lemma b64_char_plain s :
  0 <= s < 64 → is_ascii_white (b64_char s) = false ∧ (b64_char s =? pad) = false.
Proof.
  intros Hs. unfold b64_char, is_ascii_white, pad.
  repeat case_match; split; lia.
Qed.

Lemma list_ind3 {A} (P : list A → Prop) :
  P [] → (∀ a, P [a]) → (∀ a b, P [a; b]) →
  (∀ a b c l, P l → P (a :: b :: c :: l)) → ∀ l, P l.
Proof.
  intros H0 H1 H2 H3.
  fix IH 1. intros [|a [|b [|c l]]];
    [exact H0 | apply H1 | apply H2 | apply H3, IH].
Qed.

Ltac sextets :=
  unfold byte in *; Z.div_mod_to_equations; lia.

Lemma btoa_groups_length s : (length (btoa_groups s) mod 4 = 0)%nat.
Proof.
  induction s as [| | |a b c l IH] using list_ind3; try reflexivity.
  cbn [btoa_groups length].
  change (S (S (S (S ?n)))) with (4 + n)%nat.
  rewrite <- Nat.Div0.add_mod_idemp_l. exact IH.
Qed.

Lemma btoa_groups_cons4 a s :
  ∃ c1 c2 c3 c4 r, btoa_groups (a :: s) = c1 :: c2 :: c3 :: c4 :: r.
Proof. destruct s as [|b [|c l]]; cbn; eauto 10. Qed.

Lemma btoa_groups_no_white s :
  Forall byte s →
  filter (λ c, is_ascii_white c = false) (btoa_groups s) = btoa_groups s.
Proof.
  induction s as [|a|a b|a b c l IH] using list_ind3; intros Hs.
  - reflexivity.
  - apply Forall_cons in Hs as [Ha _]. cbn [btoa_groups].
    rewrite !filter_cons_True; [done|done|done|..]; apply b64_char_plain; sextets.
  - apply Forall_cons in Hs as [Ha Hs]. apply Forall_cons in Hs as [Hb _].
    cbn [btoa_groups].
    rewrite !filter_cons_True; [done|done|..]; apply b64_char_plain; sextets.
  - apply Forall_cons in Hs as [Ha Hs]. apply Forall_cons in Hs as [Hb Hs].
    apply Forall_cons in Hs as [Hc Hs]. cbn [btoa_groups].
    rewrite !filter_cons_True; [by rewrite IH|..]; apply b64_char_plain; sextets.
Qed.

Lemma drop_pad_cons a x y r :
  drop_pad (a :: x :: y :: r) = a :: drop_pad (x :: y :: r).
Proof. reflexivity. Qed.

Lemma atob_groups_drop_pad s :
  Forall byte s → atob_groups (drop_pad (btoa_groups s)) = Some s.
Proof.
  induction s as [|a|a b|a b c l IH] using list_ind3; intros Hs.
  - reflexivity.
  - apply Forall_cons in Hs as [Ha _]. cbn [btoa_groups drop_pad].
    rewrite !Z.eqb_refl. cbn [atob_groups].
    rewrite !b64_index_char by sextets. cbn. do 2 f_equal. sextets.
  - apply Forall_cons in Hs as [Ha Hs]. apply Forall_cons in Hs as [Hb _].
    cbn [btoa_groups drop_pad].
    destruct (b64_char_plain (b mod 16 * 4)) as [_ ->]; [sextets|].
    rewrite Z.eqb_refl. cbn [atob_groups].
    rewrite !b64_index_char by sextets. cbn. repeat f_equal; sextets.
  - apply Forall_cons in Hs as [Ha Hs]. apply Forall_cons in Hs as [Hb Hs].
    apply Forall_cons in Hs as [Hc Hs]. specialize (IH Hs).
    cbn [btoa_groups].
    destruct l as [|x l].
    + cbn [btoa_groups drop_pad].
      destruct (b64_char_plain (c mod 64)) as [_ ->]; [sextets|].
      cbn [atob_groups]. rewrite !b64_index_char by sextets. cbn.
      repeat f_equal; sextets.
    + destruct (btoa_groups_cons4 x l) as (c1 & c2 & c3 & c4 & r & Hr).
      rewrite Hr in *. rewrite 4!drop_pad_cons. cbn [atob_groups].
      rewrite !b64_index_char by sextets. cbn [mbind option_bind].
      rewrite IH. cbn. repeat f_equal; sextets.
Qed.

Lemma atob_btoa s :
  Forall byte s → btoa s = Some (btoa_groups s) ∧ atob (btoa_groups s) = Some s.
Proof.
  intros Hs. split.
  - unfold btoa. replace (forallb is_latin1 s) with true; [done|].
    symmetry. apply forallb_forall. intros c Hc.
    rewrite Forall_forall in Hs. apply list_elem_of_In, Hs in Hc.
    unfold is_latin1, byte in *. lia.
  - unfold atob. rewrite btoa_groups_no_white by done.
    rewrite btoa_groups_length. cbn. by apply atob_groups_drop_pad.
Qed.

Lemma decode_encode bytes :
  Forall byte bytes → ∃ d, encode bytes = Some d ∧ decode d = Some bytes.
Proof.
  intros Hb. exists (btoa_groups bytes).
  assert (map fromCharCode bytes = bytes) as Hc.
  { rewrite <- (map_id bytes) at 2. apply map_ext_Forall.
    eapply Forall_impl; [exact Hb|]. intros b ?. unfold fromCharCode, byte in *.
    apply Z.mod_small. lia. }
  unfold encode, decode. rewrite Hc.
  destruct (atob_btoa bytes Hb) as [-> ->]. split; [done|]. cbn. f_equal.
  rewrite <- (map_id bytes) at 2. apply map_ext_Forall.
  eapply Forall_impl; [exact Hb|]. intros b ?. unfold store_uint8, byte in *.
  apply Z.mod_small. lia.
Qed.

Lemma ToInt16_range n : int16 (ToInt16 n).
Proof. unfold ToInt16, int16. case_match; Z.div_mod_to_equations; lia. Qed.

Lemma ToInt16_id v : int16 v → ToInt16 v = v.
Proof. unfold ToInt16, int16. intros. case_match; Z.div_mod_to_equations; lia. Qed.

Lemma buffer_bytes a : Forall byte (buffer_of_int16 a).
Proof.
  induction a as [|v a IH]; [constructor|].
  cbn. repeat constructor; [sextets..|exact IH].
Qed.

Lemma int16_view_buffer a :
  Forall int16 a → int16_view (buffer_of_int16 a) = (a, []).
Proof.
  induction 1 as [|v a Hv _ IH]; [done|].
  change (buffer_of_int16 (v :: a))
    with (v mod 65536 mod 256 :: v mod 65536 / 256 :: buffer_of_int16 a).
  cbn [int16_view]. rewrite IH. do 2 f_equal.
  unfold int16_of_bytes.
  replace (v mod 65536 mod 256 + 256 * (v mod 65536 / 256))
    with (v mod 65536) by (Z.div_mod_to_equations; lia).
  rewrite <- (ToInt16_id v Hv) at 2. unfold ToInt16.
  by rewrite Zmod_mod.
Qed.

Lemma pcm_int16 S : Forall int16 (pcm_of_samples S).
Proof. apply Forall_forall. intros v Hv. apply list_elem_of_In, in_map_iff in Hv as (x & <- & _). apply ToInt16_range. Qed.

Lemma map_nth_seq (f : Z → Q) a :
  map (λ i, f (nth (i * 1 + 0) a 0)) (seq 0 (length a)) = map f a.
Proof.
  induction a as [|v a IH]; [done|].
  cbn [length seq map]. f_equal. rewrite <- seq_shift, map_map.
  rewrite <- IH. apply map_ext. intros i.
  by replace (S i * 1 + 0)%nat with (S (i * 1 + 0)) by lia.
Qed.

Lemma fill_buffer_mono a rate :
  a ≠ [] →
  fill_buffer a rate 1 =
    Some {| ab_length := length a; ab_sampleRate := rate;
            ab_channels := [map (λ v, v # 32768) a] |}.
Proof.
  intros Ha. unfold fill_buffer, frame_count.
  rewrite Nat.div_1_r. destruct a as [|v a]; [done|].
  cbn [length Nat.eqb orb seq map]. do 3 f_equal.
  unfold channel_data. apply (map_nth_seq (λ v, v # 32768)).
Qed.

Lemma truncate_scaled x :
  (-1 <= x)%Q → (x < 1)%Q →
  int16 (truncate (x * 32768)) ∧
  (Qabs ((truncate (x * 32768) # 32768) - x) <= 1 # 32768)%Q.
Proof.
  destruct x as [n d]. unfold Qle, Qlt, truncate. cbn.
  intros Hlo Hhi. rewrite Pos.mul_1_r.
  pose proof (Z.quot_rem' (n * 32768) (Z.pos d)) as Hq.
  set (t := (n * 32768) ÷ Z.pos d) in *. set (r := Z.rem (n * 32768) (Z.pos d)) in *.
  assert (0 <= n * 32768 → 0 <= r < Z.pos d) as Hp.
  { intros. apply Z.rem_bound_pos; lia. }
  assert (n * 32768 <= 0 → - Z.pos d < r <= 0) as Hn.
  { intros. pose proof (Z.rem_nonpos (n * 32768) (Z.pos d)).
    pose proof (Z.rem_bound_abs (n * 32768) (Z.pos d)). subst r. lia. }
  split.
  - unfold int16. nia.
  - unfold Qabs, Qle. cbn. rewrite Pos2Z.inj_mul. nia.
Qed.

Lemma round_trip_pcm decodeAudioData S :
  (∀ bytes, int16_view bytes = (pcm_of_samples S, []) →
     decodeAudioData bytes 24000%positive 1%nat
     = fill_buffer (pcm_of_samples S) 24000 1) →
  round_trip decodeAudioData S = fill_buffer (pcm_of_samples S) 24000 1.
Proof.
  intros Hd. unfold round_trip, createBlob.
  destruct (decode_encode _ (buffer_bytes (pcm_of_samples S))) as (d & -> & Hdec).
  cbn [mbind option_bind data]. rewrite Hdec. cbn [mbind option_bind].
  apply Hd, int16_view_buffer, pcm_int16.
Qed.

Lemma samples_within S :
  Forall (λ x, (-1 <= x)%Q ∧ (x < 1)%Q) S →
  Forall2 within_quantum S (map (λ v, v # 32768) (pcm_of_samples S)).
Proof.
  induction 1 as [|x S [Hlo Hhi] _ IH]; [constructor|].
  cbn. constructor; [|exact IH].
  destruct (truncate_scaled x Hlo Hhi) as [Hr He].
  unfold within_quantum, store_int16. by rewrite ToInt16_id.
Qed.

(** C1 (amended).  For every non-empty array of samples in [-1, 1), the
    frame that [createBlob] produces decodes, through [decode] and
    [decodeAudioData] at 24 kHz mono, to one channel whose samples are
    the original ones within 1/32768. *)
Theorem codec_round_trip (S : list Q) :
  S ≠ [] →
  Forall (λ x, (-1 <= x)%Q ∧ (x < 1)%Q) S →
  round_trips S.
Proof.
  intros Hne HS.
  assert (pcm_of_samples S ≠ []) as Hp by (by destruct S).
  eexists _, _. split; [|split; [|split]].
  - rewrite round_trip_pcm; [by apply fill_buffer_mono|].
    intros bytes Hb. unfold MiniCompanion.decodeAudioData. by rewrite Hb.
  - rewrite round_trip_pcm; [by apply fill_buffer_mono|].
    intros bytes Hb. unfold LiveView.decodeAudioData. by rewrite Hb.
  - reflexivity.
  - by apply samples_within.
Qed.

(** A frame of four samples, the lowest one among them. *)
Lemma codec_round_trip_witness : round_trips [1 # 2; -1; 0; 3 # 7]%Q.
Proof.
  apply codec_round_trip; [done|].
  repeat constructor; unfold Qle, Qlt; cbn; lia.
Defined.

(** C1, as stated, fails: the sample 1.0 lies in [-1, 1] and comes back
    as -1.0. *)
Lemma codec_round_trip_full_scale :
  (-1 <= 1)%Q ∧ (1 <= 1)%Q ∧ ¬ round_trips [1%Q].
Proof.
  split; [done|split; [done|]].
  intros (buffer & out & H1 & _ & H2 & H3).
  vm_compute in H1. injection H1 as <-. cbn in H2. injection H2 as <-.
  apply Forall2_cons_1 in H3 as [H3 _].
  unfold within_quantum, Qle in H3. vm_compute in H3. by apply H3.
Qed.

(** C9.  [createBlob] stores [x * 32768] truncated toward zero and
    reduced modulo 2^16 into the signed 16-bit range; the sample 1.0 is
    stored as -32768, its frame is [AIA=], and it decodes to -1.0. *)
Theorem float_to_pcm_wraps :
  (∀ x : Q,
     let t := truncate (x * 32768) in
     let v := store_int16 (x * 32768) in
     Z.abs t * Z.pos (Qden x) <= Z.abs (Qnum x) * 32768
       < (Z.abs t + 1) * Z.pos (Qden x)
     ∧ 0 <= t * Qnum x
     ∧ -32768 <= v < 32768
     ∧ (v - t) mod 65536 = 0)
  ∧ (∀ S x xs, pcm_of_samples (S ++ x :: xs) !! length S
               = Some (store_int16 (x * 32768)))
  ∧ pcm_of_samples [1%Q] = [-32768]
  ∧ pcm_of_samples [1%Q] ≠ [32767]
  ∧ data <$> createBlob [1%Q] = Some (lit "AIA=")
  ∧ ab_channels <$> round_trip MiniCompanion.decodeAudioData [1%Q]
    = Some [[-32768 # 32768]]
  ∧ (-32768 # 32768 == -1)%Q.
Proof.
  split; [|split; [|repeat split; done]].
  - intros [n d] t v. subst t v. unfold store_int16, truncate. cbn.
    rewrite Pos.mul_1_r.
    pose proof (Z.quot_rem' (n * 32768) (Z.pos d)) as Hq.
    pose proof (Z.rem_bound_abs (n * 32768) (Z.pos d)) as Hr.
    pose proof (Z.rem_nonpos (n * 32768) (Z.pos d)) as Hn.
    pose proof (Z.rem_bound_pos (n * 32768) (Z.pos d)) as Hp.
    set (t := (n * 32768) ÷ Z.pos d) in *.
    set (r := Z.rem (n * 32768) (Z.pos d)) in *.
    pose proof (ToInt16_range t) as Hv. unfold int16 in Hv.
    assert (0 <= n ∧ 0 <= t ∧ 0 <= r < Z.pos d
            ∨ n <= 0 ∧ t <= 0 ∧ - Z.pos d < r <= 0) as Hsign.
    { destruct (Z.le_gt_cases 0 n); [left|right]; nia. }
    split; [|split; [|split; [lia|]]].
    + destruct Hsign as [(? & ? & ?)|(? & ? & ?)]; nia.
    + destruct Hsign as [(? & ? & ?)|(? & ? & ?)]; nia.
    + unfold ToInt16. case_match; Z.div_mod_to_equations; lia.
  - intros S x xs. unfold pcm_of_samples. rewrite map_app. cbn.
    rewrite <- (length_map (λ x, store_int16 (x * 32768)) S).
    by rewrite list_lookup_middle.
Qed.

End codec.

(** ** Playback scheduler *)

Section playback.
Import Codec Playback Eff.

Lemma duration_nonneg b : (0 <= duration b)%Q.
Proof. unfold duration, Qle. cbn. lia. Qed.

Lemma play_cons c cs st : play (c :: cs) st = play cs (schedule c.1 c.2 st).
Proof. reflexivity. Qed.

Lemma play_nodes cs : ∀ st,
  nodes (play cs st)
  = nodes st
    ++ drop (length (nodes st)) (nodes (play cs st)).
Proof.
  induction cs as [|c cs IH]; intros st.
  - cbn. by rewrite drop_all, app_nil_r.
  - rewrite play_cons. rewrite (IH (schedule c.1 c.2 st)) at 1.
    cbn [schedule nodes]. rewrite <- app_assoc. f_equal.
    rewrite (IH (schedule c.1 c.2 st)) at 2. cbn [schedule nodes].
    rewrite <- app_assoc, drop_app_length. reflexivity.
Qed.

Lemma starts_times cs : ∀ st, starts cs st = times cs st.
Proof.
  induction cs as [|c cs IH]; intros st; unfold starts in *.
  - cbn. by rewrite drop_all.
  - rewrite play_cons. cbn [times]. rewrite <- IH.
    rewrite (play_nodes cs (schedule c.1 c.2 st)).
    cbn [schedule nodes]. rewrite <- !app_assoc, !drop_app_length.
    rewrite length_app. cbn [length].
    replace (length (nodes st) + 1)%nat with (length (nodes st ++ [
      {| startAt := start_time c.1 st; playFor := duration c.2; state := Started |}]))
      by (rewrite length_app; reflexivity).
    rewrite app_assoc, drop_app_length. reflexivity.
Qed.

Lemma times_length cs : ∀ st, length (times cs st) = length cs.
Proof. induction cs as [|c cs IH]; intros st; cbn; [done|by rewrite IH]. Qed.

Lemma times_lookup cs : ∀ st i now buffer,
  cs !! i = Some (now, buffer) →
  times cs st !! i = Some (Qmax (nextStartTime (play (take i cs) st)) now)
  ∧ nextStartTime (play (take (S i) cs) st)
    = (Qmax (nextStartTime (play (take i cs) st)) now + duration buffer)%Q.
Proof.
  induction cs as [|c cs IH]; intros st i now buffer Hi; [done|].
  destruct i as [|i].
  - injection Hi as ->. done.
  - cbn in Hi. apply (IH (schedule c.1 c.2 st)) in Hi. exact Hi.
Qed.

(** C2.  For every sequence of chunks, whatever the clock reads at each
    arrival: chunk [i] starts at the maximum of [nextStartTime] and the
    clock, [nextStartTime] is then that start plus the chunk's
    duration, and so each start is at least the previous start plus the
    previous duration, and the starts never decrease. *)
Theorem playback_gapless (st : Scheduler) (chunks : list (Q * AudioBuffer)) :
  let ts := starts chunks st in
  length ts = length chunks
  ∧ (∀ i now buffer, chunks !! i = Some (now, buffer) →
       let before := play (take i chunks) st in
       let after := play (take (S i) chunks) st in
       ts !! i = Some (Qmax (nextStartTime before) now)
       ∧ nextStartTime after
         = (Qmax (nextStartTime before) now + duration buffer)%Q)
  ∧ (∀ i now buffer a b,
       chunks !! i = Some (now, buffer) →
       ts !! i = Some a → ts !! S i = Some b →
       (a + duration buffer <= b)%Q ∧ (a <= b)%Q).
Proof.
  cbn zeta. rewrite starts_times. split; [apply times_length|]. split.
  - intros i now buffer Hi. by apply times_lookup.
  - intros i now buffer a b Hi Ha Hb.
    destruct (times_lookup chunks st i now buffer Hi) as [Ha' Hn].
    rewrite Ha in Ha'. injection Ha' as ->.
    destruct (chunks !! S i) as [[now' buffer']|] eqn:Hi'.
    + destruct (times_lookup chunks st (S i) now' buffer' Hi') as [Hb' _].
      rewrite Hb in Hb'. injection Hb' as ->. rewrite Hn.
      assert (Qmax (nextStartTime (play (take i chunks) st)) now
                + duration buffer
              <= Qmax (Qmax (nextStartTime (play (take i chunks) st)) now
                       + duration buffer) now')%Q as Hle
        by apply Q.le_max_l.
      split; [exact Hle|].
      eapply Qle_trans; [|exact Hle].
      rewrite <- (Qplus_0_r (Qmax _ _)) at 1.
      apply Qplus_le_r. apply duration_nonneg.
    + apply lookup_ge_None in Hi'. apply lookup_lt_Some in Hb.
      rewrite times_length in Hb. lia.
Qed.

(** An inbound chunk of one sample: decoded by either view, it is
    scheduled at once and moves the clock by one frame at 24 kHz. *)
Example one_sample_chunk :
  let chunk := on_audio MiniCompanion.decodeAudioData 0 (Some (Js.lit "AIA=")) in
  returns chunk init = true
  ∧ nextStartTime (exec chunk init) = (Qmax 0 0 + (1 # 24000))%Q
  ∧ on_audio LiveView.decodeAudioData 0 (Some (Js.lit "AIA=")) init = chunk init
  ∧ sources (exec chunk init) = [0%nat]
  ∧ on_audio MiniCompanion.decodeAudioData 0 None init = (Returned tt, init)
  ∧ returns (on_audio MiniCompanion.decodeAudioData 0 (Some (Js.lit "AI*="))) init
    = false.
Proof. cbn zeta. repeat split; by vm_compute. Qed.

End playback.

(** ** Interruption *)

Section interrupt.
Import Codec Playback Eff.

Lemma halt_state n :
  state (halt n) = match state n with Started => Stopped | q => q end.
Proof. unfold halt, stop. by destruct n as [? ? []]. Qed.

Lemma halt_idem n : halt (halt n) = halt n.
Proof. unfold halt, stop. by destruct n as [? ? []]. Qed.

Lemma try_stop_lookup ns x s :
  try_stop ns x !! s = if decide (s = x) then halt <$> ns !! s else ns !! s.
Proof.
  unfold try_stop. destruct (ns !! x) as [n|] eqn:Hx.
  - unfold halt. destruct (stop n) as [n'|] eqn:Hn.
    + case_decide as Hs.
      * subst s. rewrite list_lookup_insert_eq by (by eapply lookup_lt_Some).
        rewrite Hx. cbn. by rewrite Hn.
      * by rewrite list_lookup_insert_ne.
    + case_decide as Hs; [subst s; rewrite Hx; cbn; by rewrite Hn|done].
  - case_decide as Hs; [subst s; by rewrite Hx|done].
Qed.

Lemma stop_all_lookup ss : ∀ ns s,
  foldl try_stop ns ss !! s
  = if decide (s ∈ ss) then halt <$> ns !! s else ns !! s.
Proof.
  induction ss as [|x ss IH]; intros ns s; cbn [foldl].
  - case_decide as H; [by apply elem_of_nil in H|done].
  - rewrite IH, try_stop_lookup.
    destruct (decide (s = x)) as [->|Hne].
    + rewrite (decide_True (P := x ∈ x :: ss)) by apply list_elem_of_here.
      case_decide; [|done].
      destruct (ns !! x) as [n|]; cbn; [by rewrite halt_idem|done].
    + case_decide as Hin.
      * by rewrite decide_True by (by apply list_elem_of_further).
      * rewrite decide_False; [done|].
        intros [?|?]%elem_of_cons; done.
Qed.

Lemma stop_each_started ss : ∀ ns,
  (∀ s, s ∈ ss → ∃ n, ns !! s = Some n ∧ state n ≠ Unstarted) →
  stop_each ns ss = (foldl try_stop ns ss, true).
Proof.
  induction ss as [|x ss IH]; intros ns Hst; [done|].
  cbn [stop_each foldl]. unfold try_stop at 2.
  destruct (Hst x) as (n & Hx & Hn); [set_solver|]. rewrite Hx.
  destruct (stop n) as [n'|] eqn:Hstop.
  - apply IH. intros s Hs.
    destruct (Hst s) as (m & Hm & Hmn); [set_solver|].
    destruct (decide (s = x)) as [->|Hne].
    + exists n'. rewrite list_lookup_insert_eq by (by eapply lookup_lt_Some).
      split; [done|]. unfold stop in Hstop.
      destruct (state n) eqn:E; simplify_eq; cbn; congruence.
    + exists m. by rewrite list_lookup_insert_ne.
  - unfold stop in Hstop. by destruct (state n).
Qed.

Lemma silenced_stop_all st after :
  nodes after = stop_all st → silenced st after.
Proof.
  intros Hn s n Hs Hl. rewrite Hn. unfold stop_all.
  rewrite stop_all_lookup, decide_True by done. rewrite Hl. cbn.
  eexists. split; [done|]. apply halt_state.
Qed.

Lemma started_step st e : started st → started (MiniCompanion.step st e).
Proof.
  intros Hst. destruct e as [now buffer|x|]; cbn [MiniCompanion.step].
  - intros s Hs. cbn [schedule sources nodes] in *. unfold set_add in Hs.
    destruct (bool_decide (length (nodes st) ∈ sources st)).
    + destruct (Hst s Hs) as (n & Hn & Hne). exists n. split; [|done].
      by apply lookup_app_l_Some.
    + apply elem_of_app in Hs as [Hs|Hs].
      * destruct (Hst s Hs) as (n & Hn & Hne). exists n. split; [|done].
        by apply lookup_app_l_Some.
      * apply list_elem_of_singleton in Hs as ->. eexists. split.
        -- rewrite lookup_app_r by done. by rewrite Nat.sub_diag.
        -- done.
  - intros s Hs. cbn [on_ended sources nodes] in *. unfold set_delete in Hs.
    apply list_elem_of_filter in Hs as [_ Hs].
    destruct (Hst s Hs) as (n & Hn & Hne).
    destruct (decide (s = x)) as [->|Hx].
    + exists (finish n). rewrite list_lookup_alter_eq, Hn. split; [done|].
      unfold finish. destruct n as [? ? []]; cbn in *; congruence.
    + exists n. by rewrite list_lookup_alter_ne.
  - unfold exec, MiniCompanion.interrupt.
    rewrite stop_each_started by exact Hst. cbn. intros s Hs.
    by apply elem_of_nil in Hs.
Qed.

Lemma started_reachable evs : started (foldl MiniCompanion.step init evs).
Proof.
  induction evs as [|e evs IH] using rev_ind.
  - intros s Hs. by apply elem_of_nil in Hs.
  - rewrite foldl_app. cbn. by apply started_step.
Qed.

Lemma interrupt_started st :
  started st →
  MiniCompanion.interrupt st
  = (Returned tt, LiveView.interrupt st).
Proof.
  intros Hst. unfold MiniCompanion.interrupt, LiveView.interrupt, stop_all.
  by rewrite stop_each_started.
Qed.

(** C3.  After the interrupted branch, whatever the state and however
    many sources were in flight: every source that was in the set is
    stopped (one that had already finished stays as it was, without an
    error), the set is empty and [nextStartTime] is 0.  The branch of
    the mini companion has no [try] around [stop()]; in every state it
    can be in, no [stop()] throws, and it does the same. *)
Theorem interrupt_postcondition :
  (∀ st : Scheduler,
     let st' := LiveView.interrupt st in
     sources st' = [] ∧ nextStartTime st' = 0%Q ∧ silenced st st')
  ∧ (∀ evs : list Playback.Event,
       let st := foldl MiniCompanion.step init evs in
       let st' := exec MiniCompanion.interrupt st in
       returns MiniCompanion.interrupt st = true
       ∧ sources st' = [] ∧ nextStartTime st' = 0%Q ∧ silenced st st').
Proof.
  split.
  - intros st. cbn zeta. repeat split. by apply silenced_stop_all.
  - intros evs. cbn zeta. unfold returns, exec.
    rewrite interrupt_started by apply started_reachable.
    repeat split. by apply silenced_stop_all.
Qed.

(** Two sources of 1.0 s and 1.5 s scheduled at 0 and 1.0, then an
    interruption: both are stopped and the clock is back at 0. *)
Example interrupt_two_sources :
  let one := {| ab_length := 2; ab_sampleRate := 2; ab_channels := [] |} in
  let more := {| ab_length := 3; ab_sampleRate := 2; ab_channels := [] |} in
  let st := play [(0%Q, one); (0%Q, more)] init in
  startAt <$> nodes st = [Qmax 0 0; Qmax (Qmax 0 0 + (2 # 2)) 0]%Q
  ∧ sources st = [0; 1]%nat
  ∧ state <$> nodes (LiveView.interrupt st) = [Stopped; Stopped]
  ∧ sources (LiveView.interrupt st) = []
  ∧ nextStartTime (LiveView.interrupt st) = 0%Q.
Proof. cbn zeta. repeat split. Qed.

End interrupt.

(** ** Transcript assembler *)

Section transcript.
Import Js Live Transcript.

Lemma user_fragments_app t1 t2 :
  user_fragments (t1 ++ t2) = user_fragments t1 ++ user_fragments t2.
Proof.
  induction t1 as [|[u|v|] t1 IH]; cbn; [done| |done..].
  by rewrite IH, app_assoc.
Qed.

Lemma ai_fragments_app t1 t2 :
  ai_fragments (t1 ++ t2) = ai_fragments t1 ++ ai_fragments t2.
Proof.
  induction t1 as [|[u|v|] t1 IH]; cbn; [done|done| |done].
  by rewrite IH, app_assoc.
Qed.


Lemma run_cons e evs a :
  run (e :: evs) a = run evs (on_message (message_of e) a).
Proof. reflexivity. Qed.



Lemma trim_start_split s : ∃ w, s = w ++ trim_start s.
Proof.
  induction s as [|c s [w IH]]; [by exists []|].
  cbn. destruct (is_white c); [|by exists []].
  exists (c :: w). cbn. by rewrite <- IH.
Qed.

Lemma trim_start_head s : starts_white (trim_start s) = false.
Proof.
  induction s as [|c s IH]; [done|].
  cbn. destruct (is_white c) eqn:Hc; [done|]. cbn. exact Hc.
Qed.

Lemma trim_end_head s : starts_white s = false → starts_white (trim_end s) = false.
Proof.
  intros Hs. unfold trim_end.
  destruct (trim_start_split (rev s)) as [w Hw].
  apply (f_equal (λ l, rev l)) in Hw. rewrite rev_involutive, rev_app_distr in Hw.
  destruct (rev (trim_start (rev s))) as [|c r]; [done|].
  rewrite Hw in Hs. exact Hs.
Qed.

Lemma trim_trimmed s : trimmed (trim s).
Proof.
  split.
  - apply trim_end_head, trim_start_head.
  - unfold trim, trim_end. rewrite rev_involutive. apply trim_start_head.
Qed.

Lemma trim_start_white s : all_white s → trim_start s = [].
Proof. induction 1 as [|c s Hc _ IH]; [done|]. cbn. by rewrite Hc. Qed.

Lemma trim_white s : all_white s → trim s = [].
Proof. intros Hs. unfold trim. by rewrite trim_start_white. Qed.

Lemma truthy_nonempty s : truthy s = true → s ≠ [].
Proof. by destruct s. Qed.

Lemma flushed_trimmed a m : m ∈ flushed a → trimmed (text m) ∧ text m ≠ [].
Proof.
  unfold flushed, entry. intros Hm.
  destruct (truthy (trim (userTextBuffer a))) eqn:Hu,
           (truthy (trim (aiTextBuffer a))) eqn:Ha; cbn in Hm.
  - apply elem_of_cons in Hm as [->|Hm]; cbn.
    { split; [apply trim_trimmed|by apply truthy_nonempty]. }
    apply list_elem_of_singleton in Hm as ->. cbn.
    split; [apply trim_trimmed|by apply truthy_nonempty].
  - apply list_elem_of_singleton in Hm as ->. cbn.
    split; [apply trim_trimmed|by apply truthy_nonempty].
  - apply list_elem_of_singleton in Hm as ->. cbn.
    split; [apply trim_trimmed|by apply truthy_nonempty].
  - by apply elem_of_nil in Hm.
Qed.

Lemma run_emits evs : ∀ a,
  ∃ out, messages (run evs a) = messages a ++ out
         ∧ ∀ m, m ∈ out → trimmed (text m) ∧ text m ≠ [].
Proof.
  induction evs as [|e evs IH]; intros a.
  - exists []. split; [by rewrite app_nil_r|]. intros m Hm. by apply elem_of_nil in Hm.
  - rewrite run_cons. destruct (IH (on_message (message_of e) a)) as (out & Hout & Ht).
    rewrite Hout. destruct e as [t|t|].
    + by exists out.
    + by exists out.
    + exists (flushed a ++ out). split.
      * change (messages (on_message (message_of TurnComplete) a))
          with (messages a ++ flushed a). by rewrite app_assoc.
      * intros m [Hm|Hm]%elem_of_app; [by eapply flushed_trimmed|by apply Ht].
Qed.

Lemma emitted_out evs a out :
  messages (run evs a) = messages a ++ out → emitted evs a = out.
Proof. intros H. unfold emitted. by rewrite H, drop_app_length. Qed.

Lemma run_app e1 e2 a : run (e1 ++ e2) a = run e2 (run e1 a).
Proof. unfold run. by rewrite foldl_app. Qed.

Lemma on_message_events m a : on_message m a = run (events_of m) a.
Proof.
  unfold events_of, on_message.
  destruct (inputTranscription m) as [t|],
           (outputTranscription m) as [u|],
           (turnComplete m); reflexivity.
Qed.

Lemma life_heard hs :
  Mounted.transcript (Mounted.life hs) = run (Mounted.heard hs) init.
Proof.
  unfold Mounted.life, Mounted.heard.
  induction hs as [|h hs IH] using rev_ind; [done|].
  rewrite foldl_app, bind_app, run_app, <- IH. cbn [foldl mbind list_bind].
  rewrite app_nil_r. destruct h as [m| | |]; cbn [Mounted.step Mounted.transcript].
  - apply on_message_events.
  - done.
  - done.
  - done.
Qed.

Lemma trim_start_parts s :
  ∃ w, s = w ++ trim_start s ∧ all_white w.
Proof.
  induction s as [|c s (w & Hs & Hw)].
  - exists []. split; [done|constructor].
  - cbn [trim_start]. destruct (is_white c) eqn:E.
    + exists (c :: w). split; [cbn; by rewrite <- Hs|by constructor].
    + exists []. split; [done|constructor].
Qed.

Lemma all_white_rev w : all_white w → all_white (rev w).
Proof.
  unfold all_white. rewrite !Forall_forall. intros H c Hc. apply H.
  by apply list_elem_of_In, in_rev, list_elem_of_In.
Qed.

Lemma trim_parts s :
  ∃ before after,
    s = before ++ trim s ++ after ∧ all_white before ∧ all_white after.
Proof.
  destruct (trim_start_parts s) as (w1 & Hs & Hw1).
  destruct (trim_start_parts (rev (trim_start s))) as (w2 & Hr & Hw2).
  exists w1, (rev w2). split; [|split; [done|by apply all_white_rev]].
  unfold trim, trim_end. rewrite <- rev_app_distr, <- Hr, rev_involutive.
  exact Hs.
Qed.

Lemma trim_not_white s : ¬ all_white s → truthy (trim s) = true.
Proof.
  intros Hs. destruct (trim_parts s) as (w1 & w2 & Heq & H1 & H2).
  destruct (trim s) as [|c r]; [|done]. exfalso. apply Hs.
  rewrite Heq. unfold all_white in *. by apply Forall_app.
Qed.

Lemma emitted_turn evs a :
  emitted (evs ++ [TurnComplete]) a = emitted evs a ++ flushed (run evs a).
Proof.
  destruct (run_emits evs a) as (out & Hout & _).
  rewrite (emitted_out _ _ _ Hout). apply emitted_out.
  rewrite run_app.
  change (messages (run [TurnComplete] (run evs a)))
    with (messages (run evs a) ++ flushed (run evs a)).
  by rewrite Hout, app_assoc.
Qed.



(** C10.  At turn-complete each buffer is trimmed before the emptiness
    test and before it is appended.  What a turn-complete appends to
    the log is, for the user buffer and then for the assistant buffer:
    nothing when the buffer holds only whitespace, and otherwise one
    message whose text is the buffer without the whitespace at its two
    ends, which is not empty.  So a turn whose buffers hold only
    whitespace adds nothing to the log, every run adds at each
    turn-complete exactly that flush, and every message a run adds to
    the log has no whitespace at either end. *)
Theorem whitespace_only_turns :
  (∀ a, messages (on_turn_complete a)
        = messages a ++ entry user (trim (userTextBuffer a))
                     ++ entry ai (trim (aiTextBuffer a)))
  ∧ (∀ r s, all_white s → entry r (trim s) = [])
  ∧ (∀ r s, ¬ all_white s →
       entry r (trim s) = [ {| role := r; text := trim s |} ]
       ∧ trim s ≠ [] ∧ trimmed (trim s)
       ∧ ∃ before after,
           s = before ++ trim s ++ after
           ∧ all_white before ∧ all_white after)
  ∧ (∀ a, all_white (userTextBuffer a) → all_white (aiTextBuffer a) →
        flushed a = [] ∧ messages (on_turn_complete a) = messages a)
  ∧ (∀ a, flushed a = entry user (trim (userTextBuffer a))
                      ++ entry ai (trim (aiTextBuffer a)))
  ∧ (∀ evs a,
       emitted (evs ++ [TurnComplete]) a
       = emitted evs a ++ flushed (run evs a))
  ∧ (∀ evs a m, m ∈ emitted evs a → trimmed (text m) ∧ text m ≠ [])
  ∧ emitted [PartialUser (lit "  "); PartialAi [10; 9; 160]; TurnComplete] init
    = []
  ∧ emitted [PartialUser (lit "  hi "); PartialUser (lit "there  ");
             PartialAi [10; 111; 107; 9]; TurnComplete] init
    = [ {| role := user; text := lit "hi there" |};
        {| role := ai; text := lit "ok" |} ].
Proof.
  assert (∀ a, flushed a = entry user (trim (userTextBuffer a))
                           ++ entry ai (trim (aiTextBuffer a))) as Hfl.
  { intros a. unfold flushed, entry. by destruct (truthy _), (truthy _). }
  split; [|split; [|split; [|split; [|split; [|split; [|split; [|split]]]]]]].
  - intros a. rewrite <- Hfl. reflexivity.
  - intros r s Hs. by rewrite trim_white.
  - intros r s Hs. pose proof (trim_not_white s Hs) as Ht.
    split; [unfold entry; by rewrite Ht|].
    split; [by apply truthy_nonempty|].
    split; [apply trim_trimmed|apply trim_parts].
  - intros a Hu Ha. unfold on_turn_complete, flushed. cbn.
    rewrite !trim_white by done. cbn. by rewrite app_nil_r.
  - exact Hfl.
  - apply emitted_turn.
  - intros evs a m Hm. destruct (run_emits evs a) as (out & Hout & Ht).
    rewrite (emitted_out _ _ _ Hout) in Hm. by apply Ht.
  - reflexivity.
  - reflexivity.
Qed.

End transcript.

(** ** Session transport *)

Section transport.
Import Js Codec Live Transport.

Lemma createBlob_total inputData : is_Some (createBlob inputData).
Proof.
  unfold createBlob.
  destruct (decode_encode _ (buffer_bytes (pcm_of_samples inputData)))
    as (d & -> & _).
  by eexists.
Qed.

Lemma captured_app e1 e2 : captured (e1 ++ e2) = captured e1 ++ captured e2.
Proof.
  induction e1 as [|[inputData| |] e1 IH]; cbn; [done| |done..].
  destruct (createBlob inputData); [|done]. cbn. by rewrite IH.
Qed.

Lemma run_in_order evs : in_order (run evs connecting) (captured evs).
Proof.
  induction evs as [|e evs IH] using rev_ind; [done|].
  unfold run in *. rewrite foldl_app, captured_app. cbn [foldl].
  set (c := foldl step connecting evs) in *. unfold in_order in *.
  destruct e as [inputData| |]; cbn [step captured].
  - unfold onaudioprocess. destruct (createBlob inputData) as [b|].
    + unfold then_send. destruct (promise c) eqn:Hp; cbn; rewrite ?Hp; [..|done];
        destruct IH as [-> ->]; done.
    + by rewrite app_nil_r.
  - rewrite app_nil_r. unfold fulfil.
    destruct (promise c) eqn:Hp; cbn; rewrite ?Hp; [|done..].
    destruct IH as [-> ->]. done.
  - rewrite app_nil_r. unfold reject.
    destruct (promise c) eqn:Hp; cbn; rewrite ?Hp; done.
Qed.

Lemma captured_length evs :
  length (captured evs) = length (filter (λ e, is_capture e = true) evs).
Proof.
  induction evs as [|[inputData| |] evs IH]; cbn [captured]; [done|..].
  - destruct (createBlob_total inputData) as [b ->].
    rewrite filter_cons_True by done. cbn [length]. by rewrite IH.
  - by rewrite filter_cons_False.
  - by rewrite filter_cons_False.
Qed.

(** C5.  When the connection resolves, every frame captured, also
    those captured while it was still connecting, has been submitted
    to it, one submission per capture and in capture order; at every
    moment before, the frames captured so far were queued on the
    promise in capture order, none dropped. *)
Theorem frames_submitted_in_order (evs : list Transport.Event) :
  promise (run evs connecting) = Fulfilled →
  sent (run evs connecting) = captured evs
  ∧ length (captured evs) = length (filter (λ e, is_capture e = true) evs)
  ∧ ∀ before after, evs = before ++ after →
      promise (run before connecting) = Pending →
      sent (run before connecting) = []
      ∧ reactions (run before connecting) = captured before.
Proof.
  intros Hp. split; [|split].
  - pose proof (run_in_order evs) as H. unfold in_order in H.
    rewrite Hp in H. apply H.
  - apply captured_length.
  - intros before after _ Hb.
    pose proof (run_in_order before) as H. unfold in_order in H.
    by rewrite Hb in H.
Qed.

(** Two frames captured while connecting, one after the connection
    resolved: three submissions, in capture order. *)
Lemma frames_submitted_in_order_witness :
  let evs := [Capture [0%Q]; Capture [(1 # 2)%Q]; Resolve; Capture [(-1)%Q]] in
  sent (run evs connecting) = captured evs
  ∧ length (captured evs) = 3%nat.
Proof.
  cbn zeta.
  destruct (frames_submitted_in_order
              [Capture [0%Q]; Capture [(1 # 2)%Q]; Resolve; Capture [(-1)%Q]])
    as (H1 & H2 & _); [reflexivity|].
  split; [exact H1|exact H2].
Defined.

End transport.

(** ** Tool calls *)

Section tools.
Import Js Codec Live Transport Eff.
Import MiniCompanion.

Lemma respond_active fc result a c :
  sessionPromise a = Some c → promise c = Fulfilled →
  returns (respond fc result) a = true
  ∧ outbox (exec (respond fc result) a)
    = sent c ++ [ToolResponse (fc_id fc) (fc_name fc) result]
  ∧ view (exec (respond fc result) a) = view a.
Proof.
  intros Hs Hp. unfold respond, returns, exec, outbox, mbind, M_bind, bind, gets.
  rewrite Hs. cbn. unfold then_send. rewrite Hp. done.
Qed.

Lemma arg_present fc key (a : Companion) :
  is_Some (fc_args fc) → ∃ v, arg fc key a = (Returned v, a).
Proof. intros [args Ha]. unfold arg. rewrite Ha. by eexists. Qed.

Local Opaque lit.

Ltac here := repeat first [apply list_elem_of_here | apply list_elem_of_further].

Ltac run_dispatch :=
  unfold mbind, M_bind, mret, M_ret, bind, ret, setView, request_motivation,
    modify;
  repeat match goal with H : arg _ _ _ = _ |- _ => rewrite H end;
  eexists _, _; (split; [reflexivity|split; [reflexivity|]]).

Lemma dispatch_returns fc a :
  (reads_args (fc_name fc) → is_Some (fc_args fc)) →
  ∃ result a',
    dispatch fc a = (Returned result, a')
    ∧ sessionPromise a' = sessionPromise a
    ∧ (¬ recognized (fc_name fc) →
       result = lit "Feature not implemented via voice yet.").
Proof.
  intros Hargs. unfold dispatch, named, recognized, reads_args in *.
  case_bool_decide as H1.
  { destruct (arg_present fc (lit "topic") (exec (setView NOTES_GENERATOR) a))
      as [v Hv]; [apply Hargs; rewrite H1; here|].
    unfold exec, setView, modify in Hv. cbn [snd] in Hv.
    run_dispatch. intros Hn. exfalso. apply Hn. rewrite H1. here. }
  case_bool_decide as H2.
  { destruct (arg_present fc (lit "topic") (exec (setView QUIZ) a))
      as [v Hv]; [apply Hargs; rewrite H2; here|].
    unfold exec, setView, modify in Hv. cbn [snd] in Hv.
    run_dispatch. intros Hn. exfalso. apply Hn. rewrite H2. here. }
  case_bool_decide as H3.
  { run_dispatch. intros Hn. exfalso. apply Hn. rewrite H3. here. }
  case_bool_decide as H4.
  { run_dispatch. intros Hn. exfalso. apply Hn. rewrite H4. here. }
  case_bool_decide as H5.
  { run_dispatch. intros Hn. exfalso. apply Hn. rewrite H5. here. }
  case_bool_decide as H6.
  { destruct (arg_present fc (lit "concept") a) as [v Hv];
      [apply Hargs; rewrite H6; here|].
    run_dispatch. intros Hn. exfalso. apply Hn. rewrite H6. here. }
  case_bool_decide as H7.
  { run_dispatch. intros Hn. exfalso. apply Hn. rewrite H7. here. }
  run_dispatch. done.
Qed.

Local Transparent lit.

(** C7 (amended).  While the session is active, the handler of the mini
    companion answers an invocation with exactly one response carrying
    its id and name, provided the invocation carries an arguments
    object when the answer of its tool quotes an argument; an
    unrecognized name is answered with "Feature not implemented via
    voice yet.".  The handler of the assistant view recognizes no
    name: it answers every invocation with exactly one response
    carrying its id and name and the result "ok". *)
Theorem tool_call_answered_once :
  (∀ fc a c,
     sessionPromise a = Some c → promise c = Fulfilled →
     (reads_args (fc_name fc) → is_Some (fc_args fc)) →
     ∃ result,
       returns (handleAssistantToolCall fc) a = true
       ∧ outbox (exec (handleAssistantToolCall fc) a)
         = sent c ++ [ToolResponse (fc_id fc) (fc_name fc) result]
       ∧ (¬ recognized (fc_name fc) →
          result = lit "Feature not implemented via voice yet."
          ∧ unsupported_style result))
  ∧ (∀ fc c,
       promise c = Fulfilled →
       ∃ c', LiveView.handleAssistantToolCall fc (Some c) = Some c'
             ∧ promise c' = Fulfilled
             ∧ sent c' = sent c ++ [ToolResponse (fc_id fc) (fc_name fc) (lit "ok")]).
Proof.
  split.
  - intros fc a c Hs Hp Hargs.
    destruct (dispatch_returns fc a Hargs) as (result & a' & Hd & Hs' & Hr).
    rewrite <- Hs' in Hs.
    destruct (respond_active fc result a' c Hs Hp) as (Hret & Hout & _).
    exists result. unfold handleAssistantToolCall, returns, exec, mbind, M_bind, bind in *.
    rewrite Hd. split; [exact Hret|split; [exact Hout|]].
    intros Hn. rewrite (Hr Hn). split; [done|]. unfold unsupported_style. here.
  - intros fc c Hp. eexists. split; [reflexivity|].
    unfold then_send. rewrite Hp. done.
Qed.

(** C7, as stated, fails for the assistant view: a name that no handler
    knows is answered with "ok", the result of every other call, and
    not with an unsupported-style result. *)
Lemma tool_call_unknown_gets_ok :
  let fc := {| fc_id := lit "7"; fc_name := lit "fly_to_moon"; fc_args := None |} in
  let active := {| promise := Fulfilled; reactions := []; sent := [] |} in
  ¬ recognized (fc_name fc)
  ∧ sent <$> LiveView.handleAssistantToolCall fc (Some active)
    = Some [ToolResponse (lit "7") (lit "fly_to_moon") (lit "ok")]
  ∧ ¬ unsupported_style (lit "ok").
Proof.
  cbn zeta. split; [|split; [reflexivity|]].
  - unfold recognized. intros H.
    repeat (apply elem_of_cons in H as [H|H]; [vm_compute in H; discriminate H|]).
    by apply elem_of_nil in H.
  - unfold unsupported_style. intros H.
    repeat (apply elem_of_cons in H as [H|H]; [vm_compute in H; discriminate H|]).
    by apply elem_of_nil in H.
Qed.

(** The mini companion on a tool it knows and on one it does not. *)
Example tool_calls_of_the_companion :
  let a := {| view := DASHBOARD; motivations := 0;
              sessionPromise := Some {| promise := Fulfilled; reactions := []; sent := [] |} |} in
  let notes := {| fc_id := lit "1"; fc_name := lit "generate_notes";
                  fc_args := Some {[ lit "topic" := lit "Heaps" ]} |} in
  let moon := {| fc_id := lit "2"; fc_name := lit "fly_to_moon"; fc_args := None |} in
  outbox (exec (handleAssistantToolCall notes) a)
  = [ToolResponse (lit "1") (lit "generate_notes")
       (lit "Navigated to notes generator. Topic identified: Heaps. Starting notes engine...")]
  ∧ view (exec (handleAssistantToolCall notes) a) = NOTES_GENERATOR
  ∧ outbox (exec (handleAssistantToolCall moon) a)
    = [ToolResponse (lit "2") (lit "fly_to_moon")
         (lit "Feature not implemented via voice yet.")]
  ∧ view (exec (handleAssistantToolCall moon) a) = DASHBOARD.
Proof. cbn zeta. repeat split; by vm_compute. Qed.

(** An invocation of [generate_notes] without an arguments object: the
    view changes, the template literal throws, and no response is sent. *)
Example tool_call_without_args :
  let fc := {| fc_id := lit "7"; fc_name := lit "generate_notes"; fc_args := None |} in
  let a := {| view := DASHBOARD; motivations := 0;
              sessionPromise := Some {| promise := Fulfilled; reactions := []; sent := [] |} |} in
  returns (handleAssistantToolCall fc) a = false
  ∧ outbox (exec (handleAssistantToolCall fc) a) = []
  ∧ view (exec (handleAssistantToolCall fc) a) = NOTES_GENERATOR.
Proof. cbn zeta. by vm_compute. Qed.

(** One message with a tool call, a chunk of audio, the end of a turn
    and an interruption, on an active assistant view: one response is
    sent, the chunk is scheduled and then stopped, the turn is flushed. *)
Example message_with_everything :
  let message :=
    {| toolCall := Some [{| fc_id := lit "7"; fc_name := lit "go_home";
                            fc_args := None |}];
       inlineData := Some (lit "AIA=");
       inputTranscription := Some {| tr_text := Some (lit " hi ") |};
       outputTranscription := None;
       turnComplete := true;
       interrupted := true |} in
  let before :=
    {| LiveView.in_session :=
         Some {| promise := Fulfilled; reactions := []; sent := [] |};
       LiveView.in_playback := Playback.init;
       LiveView.in_transcript := Transcript.init |} in
  let after := LiveView.onmessage 5 message before in
  sent <$> LiveView.in_session after
  = Some [ToolResponse (lit "7") (lit "go_home") (lit "ok")]
  ∧ Playback.state <$> Playback.nodes (LiveView.in_playback after)
    = [Playback.Stopped]
  ∧ Playback.sources (LiveView.in_playback after) = []
  ∧ Playback.nextStartTime (LiveView.in_playback after) = 0%Q
  ∧ Transcript.emitted [] (LiveView.in_transcript after) = []
  ∧ Transcript.messages (LiveView.in_transcript after)
    = [Transcript.greeting;
       {| Transcript.role := Transcript.user; Transcript.text := lit "hi" |}].
Proof. cbn zeta. repeat split; by vm_compute. Qed.

End tools.

(** ** Teardown *)

Section teardown.
Import Playback Eff Lifecycle Scenario.

Ltac run_eff :=
  unfold mbind, M_bind, mret, M_ret, bind, ret, gets, modify, try_catch,
    await_close, call, throw, exec, returns in *.

Lemma stopLiveSession_active throws st p s sp :
  scriptProcessorRef st = Some p → streamRef st = Some s →
  sessionPromiseRef st = Some sp →
  throws (Disconnect p) = false → throws (TrackStop s) = false →
  let st' := exec (LiveView.stopLiveSession throws) st in
  returns (LiveView.stopLiveSession throws) st = true
  ∧ phases st'
    = phases st ++ [ClearPlayback; StopForwarding; ReleaseMic]
      ++ closes throws sp ++ [ToClosed]
  ∧ playback st' = LiveView.interrupt (playback st)
  ∧ scriptProcessorRef st' = None ∧ streamRef st' = None
  ∧ sessionPromiseRef st' = None
  ∧ isLive st' = false ∧ statusText st' = Inactive
  ∧ procs (devices st') = procs (devices st) ∖ {[p]}
  ∧ mics (devices st') = mics (devices st) ∖ {[s]}.
Proof.
  destruct st as [pb pr sr spr live status dev ph]. cbn.
  intros -> -> -> Hd Ht. unfold LiveView.stopLiveSession. run_eff. cbn.
  rewrite Hd. cbn. rewrite Ht. cbn.
  destruct sp as [c|]; cbn; [destruct (throws (Close c)); cbn|];
    rewrite <- ?app_assoc; cbn; done.
Qed.

Lemma stopVoiceSession_active throws st p s sp :
  scriptProcessorRef st = Some p → streamRef st = Some s →
  sessionPromiseRef st = Some sp →
  throws (Disconnect p) = false → throws (TrackStop s) = false →
  let st' := MiniCompanion.stopVoiceSession throws st in
  phases st'
  = phases st ++ [ReleaseMic; StopForwarding; ToClosed] ++ closes throws sp
  ∧ playback st' = playback st
  ∧ isLive st' = false
  ∧ procs (devices st') = procs (devices st) ∖ {[p]}
  ∧ mics (devices st') = mics (devices st) ∖ {[s]}.
Proof.
  destruct st as [pb pr sr spr live status dev ph]. cbn.
  intros -> -> -> Hd Ht.
  unfold MiniCompanion.stopVoiceSession, MiniCompanion.stop_now,
    MiniCompanion.close_later. run_eff. cbn.
  rewrite Ht. cbn. rewrite Hd. cbn.
  destruct sp as [c|]; cbn; [destruct (throws (Close c)); cbn|];
    rewrite <- ?app_assoc; cbn; rewrite ?app_nil_r; done.
Qed.

(** C6 (amended).  On a session that holds its processor, its stream
    and its session promise, and when [disconnect()] and [track.stop()]
    return normally, [stopLiveSession] of the assistant view performs,
    in this order: (d) clear the playback state, (a) stop forwarding
    frames, (b) release the microphone, (c) close the connection, (e)
    go to closed.  Stopping a source and closing the session are the
    steps in a [try]: a rejected session promise or a [close()] that
    throws leaves step (c) out and nothing else.  [stopVoiceSession] of
    the mini companion performs (b), (a), (e) and then, through the
    session promise, (c). *)
Theorem teardown_steps :
  (∀ throws st p s sp,
     scriptProcessorRef st = Some p → streamRef st = Some s →
     sessionPromiseRef st = Some sp →
     throws (Disconnect p) = false → throws (TrackStop s) = false →
     let st' := exec (LiveView.stopLiveSession throws) st in
     returns (LiveView.stopLiveSession throws) st = true
     ∧ phases st'
       = phases st ++ [ClearPlayback; StopForwarding; ReleaseMic]
         ++ closes throws sp ++ [ToClosed]
     ∧ playback st' = LiveView.interrupt (playback st)
     ∧ scriptProcessorRef st' = None ∧ streamRef st' = None
     ∧ sessionPromiseRef st' = None
     ∧ isLive st' = false ∧ statusText st' = Inactive)
  ∧ (∀ throws st p s sp,
       scriptProcessorRef st = Some p → streamRef st = Some s →
       sessionPromiseRef st = Some sp →
       throws (Disconnect p) = false → throws (TrackStop s) = false →
       let st' := MiniCompanion.stopVoiceSession throws st in
       phases st'
       = phases st ++ [ReleaseMic; StopForwarding; ToClosed] ++ closes throws sp
       ∧ isLive st' = false).
Proof.
  split.
  - intros throws st p s sp Hp Hs Hsp Hd Ht.
    destruct (stopLiveSession_active throws st p s sp Hp Hs Hsp Hd Ht)
      as (? & ? & ? & ? & ? & ? & ? & ? & _).
    done.
  - intros throws st p s sp Hp Hs Hsp Hd Ht.
    destruct (stopVoiceSession_active throws st p s sp Hp Hs Hsp Hd Ht)
      as (? & _ & ? & _).
    done.
Qed.

(** C6, as stated, fails.  On a session in full swing the assistant
    view clears the playback state first, not fourth; a [disconnect()]
    that throws ends its teardown there, with the microphone still held
    and the surface still live; and the mini companion closes the
    connection last and never clears the playback state. *)
Lemma teardown_not_as_lettered :
  active in_flight
  ∧ phases (exec (LiveView.stopLiveSession reliable) in_flight)
    = [ClearPlayback; StopForwarding; ReleaseMic; CloseConnection; ToClosed]
  ∧ phases (exec (LiveView.stopLiveSession reliable) in_flight)
    ≠ [StopForwarding; ReleaseMic; CloseConnection; ClearPlayback; ToClosed]
  ∧ returns (LiveView.stopLiveSession faulty_disconnect) in_flight = false
  ∧ phases (exec (LiveView.stopLiveSession faulty_disconnect) in_flight)
    = [ClearPlayback]
  ∧ size (mics (devices (exec (LiveView.stopLiveSession faulty_disconnect)
                           in_flight))) = 1%nat
  ∧ isLive (exec (LiveView.stopLiveSession faulty_disconnect) in_flight) = true
  ∧ active companion_in_flight
  ∧ phases (MiniCompanion.stopVoiceSession reliable companion_in_flight)
    = [ReleaseMic; StopForwarding; ToClosed; CloseConnection]
  ∧ sources (playback (MiniCompanion.stopVoiceSession reliable
                         companion_in_flight))
    = [0%nat].
Proof.
  split; [repeat split; by eexists|].
  do 6 (split; [by vm_compute|]).
  split; [repeat split; by eexists|].
  split; by vm_compute.
Qed.

End teardown.

(** ** One session at a time *)

Section single.
Import Playback Eff Lifecycle.

Ltac run_eff :=
  unfold mbind, M_bind, mret, M_ret, bind, ret, gets, modify, try_catch,
    await_close, call, throw, exec, returns in *.

Ltac tidy_sets :=
  rewrite ?difference_diag_L, ?(left_id_L (∅ : gset nat) (∪)).

Lemma held_size r : (size (held r) ≤ 1)%nat.
Proof. destruct r; cbn; [by rewrite size_singleton|by rewrite size_empty; lia]. Qed.

Lemma connection_of_size r : (size (connection_of r) ≤ 1)%nat.
Proof.
  destruct r as [[c|]|]; cbn;
    [by rewrite size_singleton|by rewrite size_empty; lia..].
Qed.

Lemma accounted_single st : accounted st → single_session st.
Proof.
  intros (Hm & Hc & _). unfold single_session. rewrite Hm, Hc.
  split; [apply held_size|apply connection_of_size].
Qed.

Lemma within_refs_single st : within_refs st → single_session st.
Proof.
  intros (Hm & Hc & _). split.
  - etrans; [apply subseteq_size, Hm|apply held_size].
  - etrans; [apply subseteq_size, Hc|apply connection_of_size].
Qed.

Lemma assistant_stop st :
  accounted st →
  let st' := exec (AssistantView.stopLiveSession reliable) st in
  accounted st' ∧ idle_clean st' ∧ isLive st' = false.
Proof.
  destruct st as [pb pr sr spr live status [m c p n] ph].
  unfold accounted, idle_clean. cbn. intros (-> & -> & ->).
  unfold AssistantView.stopLiveSession. run_eff.
  destruct pr as [x|], sr as [y|], spr as [[z|]|]; cbn; tidy_sets; done.
Qed.

Lemma assistant_start mic st :
  accounted st → idle_clean st → isLive st = false →
  let st' := AssistantView.startLiveSession mic st in
  accounted st' ∧ idle_clean st'.
Proof.
  destruct st as [pb pr sr spr live status [m c p n] ph].
  unfold accounted, idle_clean. cbn. intros (-> & -> & ->) Hidle ->.
  destruct (Hidle eq_refl) as (-> & -> & ->).
  unfold AssistantView.startLiveSession. destruct mic; cbn.
  - tidy_sets. done.
  - done.
Qed.

Lemma toggle_accounted mic st :
  accounted st ∧ idle_clean st →
  accounted (AssistantView.toggleLiveMode mic st)
  ∧ idle_clean (AssistantView.toggleLiveMode mic st).
Proof.
  intros [Ha Hi]. unfold AssistantView.toggleLiveMode.
  destruct (isLive st) eqn:Hl.
  - destruct (assistant_stop st Ha) as (? & ? & ?). done.
  - by apply assistant_start.
Qed.

Lemma toggles_accounted mics :
  accounted (AssistantView.toggles mics init)
  ∧ idle_clean (AssistantView.toggles mics init).
Proof.
  induction mics as [|mic mics IH] using rev_ind.
  - split; [done|done].
  - unfold AssistantView.toggles in *. rewrite foldl_app. cbn [foldl].
    by apply toggle_accounted.
Qed.


Lemma companion_stop st :
  within_refs st → cleared (MiniCompanion.stopVoiceSession reliable st).
Proof.
  destruct st as [pb pr sr spr live status [m c p n] ph].
  unfold within_refs, cleared. cbn. intros (Hm & Hc & Hp).
  unfold MiniCompanion.stopVoiceSession, MiniCompanion.stop_now,
    MiniCompanion.close_later. run_eff.
  destruct pr as [x|], sr as [y|], spr as [[z|]|]; cbn in *;
    repeat split;
    first [by apply subseteq_empty_difference_L | by apply equiv_empty_L].
Qed.

Lemma cleared_within st : cleared st → within_refs st.
Proof.
  intros (Hm & Hc & Hp). unfold within_refs. rewrite Hm, Hc, Hp.
  repeat split; apply empty_subseteq.
Qed.

Lemma companion_start mic st :
  cleared st →
  within_refs (MiniCompanion.startVoiceSession mic st)
  ∧ (mic = true → one_session (MiniCompanion.startVoiceSession mic st)).
Proof.
  destruct st as [pb pr sr spr live status [m c p n] ph].
  unfold cleared, within_refs, one_session. cbn. intros (-> & -> & ->).
  unfold MiniCompanion.startVoiceSession. destruct mic; cbn.
  - tidy_sets. rewrite !size_singleton. done.
  - repeat split; first [apply empty_subseteq | done].
Qed.

Lemma companion_effect voice mic st :
  cleared st →
  within_refs (MiniCompanion.effect voice mic st)
  ∧ (voice = true → mic = true → one_session (MiniCompanion.effect voice mic st)).
Proof.
  intros Hc. unfold MiniCompanion.effect. destruct voice.
  - destruct (companion_start mic st Hc) as [Hw Ho]. split; [done|]. auto.
  - split; [|done]. by apply cleared_within, companion_stop, cleared_within.
Qed.

Lemma init_cleared : cleared init.
Proof. done. Qed.

Lemma renders_within first rs : within_refs (MiniCompanion.renders first rs).
Proof.
  induction rs as [|r rs IH] using rev_ind; unfold MiniCompanion.renders in *.
  - apply companion_effect, init_cleared.
  - rewrite foldl_app. cbn [foldl]. unfold MiniCompanion.rerun at 1.
    by apply companion_effect, companion_stop.
Qed.
(** C8 (amended).  The start functions do not look at a session that is
    running; their callers keep the sessions apart.  With every call
    settled before the next: after any sequence of [toggleLiveMode]
    calls on the assistant view, and after any sequence of runs of the
    voice effect of the mini companion (each preceded by the cleanup of
    the last), at most one microphone stream is held and at most one
    connection is open; and running the effect again for a voice
    session with the microphone granted, whatever was running, leaves
    exactly one of each. *)
Theorem single_session_by_callers :
  (∀ mics, single_session (AssistantView.toggles mics init))
  ∧ (∀ first rs, single_session (MiniCompanion.renders first rs))
  ∧ (∀ first rs,
       one_session (MiniCompanion.rerun (MiniCompanion.renders first rs)
                      (true, true))).
Proof.
  split; [|split].
  - intros mics. apply accounted_single, toggles_accounted.
  - intros first rs. apply within_refs_single, renders_within.
  - intros first rs. unfold MiniCompanion.rerun. cbn [fst snd].
    by apply companion_effect; [apply companion_stop, renders_within|..].
Qed.

(** C8, as stated, fails: a second start while the first session is
    active tears nothing down, and two microphone streams and two
    connections are live once it has settled. *)
Lemma second_start_leaks :
  let once := AssistantView.startLiveSession true init in
  let twice := AssistantView.startLiveSession true once in
  isLive once = true ∧ one_session once
  ∧ size (mics (devices twice)) = 2%nat
  ∧ size (conns (devices twice)) = 2%nat
  ∧ ¬ single_session twice
  ∧ size (mics (devices (MiniCompanion.startVoiceSession true
                           (MiniCompanion.startVoiceSession true init))))
    = 2%nat.
Proof.
  cbn zeta. split; [done|]. split; [by vm_compute|].
  split; [by vm_compute|]. split; [by vm_compute|].
  split; [|by vm_compute].
  intros [H _]. vm_compute in H. lia.
Qed.

End single.

(* ===================================================================== *)
(** * Part III: further properties of the code *)
(* ===================================================================== *)

Section more_codec.
Import Js Codec RoundTrip.

Ltac in_range := unfold byte in *; Z.div_mod_to_equations; lia.

Lemma store_uint8_byte l : Forall byte (map store_uint8 l).
Proof.
  apply Forall_forall. intros b Hb.
  apply list_elem_of_In, in_map_iff in Hb as (x & <- & _).
  unfold store_uint8, byte. Z.div_mod_to_equations; lia.
Qed.

(** X1.  The byte codec is lossless on every [Uint8Array]: whatever
    numbers are stored into the array (each is reduced modulo 256 by
    the store), [encode] returns a text and [decode] of that text gives
    the same bytes back. *)
Theorem bytes_round_trip (values : list Z) :
  let bytes := map store_uint8 values in
  ∃ text, encode bytes = Some text ∧ decode text = Some bytes.
Proof. cbn zeta. apply decode_encode, store_uint8_byte. Qed.

(** The characters of a base64 text. *)
Lemma b64_char_index s : 0 <= s < 64 → is_Some (b64_index (b64_char s)).
Proof. intros Hs. rewrite b64_index_char by done. by eexists. Qed.

Ltac chars :=
  repeat (apply Forall_cons_2;
          [first [by right | left; apply b64_char_index; in_range]|]);
  try apply Forall_nil_2.

Lemma btoa_groups_shape s :
  Forall byte s →
  length (btoa_groups s) = (4 * ((length s + 2) / 3))%nat
  ∧ Forall (λ c, is_Some (b64_index c) ∨ c = pad) (btoa_groups s).
Proof.
  induction s as [|a|a b|a b c l IH] using list_ind3; intros Hs.
  - split; [done|constructor].
  - apply Forall_cons in Hs as [Ha _]. split; [done|].
    cbn [btoa_groups]. chars.
  - apply Forall_cons in Hs as [Ha Hs]. apply Forall_cons in Hs as [Hb _].
    split; [done|]. cbn [btoa_groups].
    chars.
  - apply Forall_cons in Hs as [Ha Hs]. apply Forall_cons in Hs as [Hb Hs].
    apply Forall_cons in Hs as [Hc Hs]. destruct (IH Hs) as [IHl IHf]. split.
    + cbn [btoa_groups length]. rewrite IHl.
      change (S (S (S (length l))) + 2)%nat with (1 * 3 + (length l + 2))%nat.
      rewrite Nat.div_add_l by lia.
      generalize ((length l + 2) `div` 3)%nat. intros q. lia.
    + cbn [btoa_groups].
      chars. exact IHf.
Qed.

Lemma buffer_length a : length (buffer_of_int16 a) = (2 * length a)%nat.
Proof.
  induction a as [|v a IH]; [done|].
  change (buffer_of_int16 (v :: a))
    with (v mod 65536 mod 256 :: v mod 65536 / 256 :: buffer_of_int16 a).
  cbn [length]. lia.
Qed.

Lemma encode_bytes bytes : Forall byte bytes → encode bytes = Some (btoa_groups bytes).
Proof.
  intros Hb. unfold encode.
  replace (map fromCharCode bytes) with bytes; [by apply atob_btoa|].
  rewrite <- (map_id bytes) at 1. apply map_ext_Forall.
  eapply Forall_impl; [exact Hb|]. intros b ?. unfold fromCharCode, byte in *.
  symmetry. apply Z.mod_small. lia.
Qed.

(** X2.  [createBlob] never fails, whatever the samples: the frame it
    returns is tagged audio/pcm;rate=16000 and its text has
    4 * ceil(2n / 3) characters for n samples, every one of them a
    character of the base64 alphabet or the padding sign, hence plain
    ASCII between [+] and [z]. *)
Theorem frame_text_shape (samples : list Q) :
  ∃ blob,
    createBlob samples = Some blob
    ∧ mimeType blob = lit "audio/pcm;rate=16000"
    ∧ length (data blob) = (4 * ((2 * length samples + 2) / 3))%nat
    ∧ Forall (λ c, is_Some (b64_index c) ∨ c = pad) (data blob)
    ∧ Forall (λ c, 43 <= c <= 122) (data blob).
Proof.
  unfold createBlob.
  rewrite (encode_bytes _ (buffer_bytes (pcm_of_samples samples))).
  eexists. split; [reflexivity|]. cbn [mimeType data].
  destruct (btoa_groups_shape _ (buffer_bytes (pcm_of_samples samples))) as [Hl Hf].
  split; [done|]. split.
  { rewrite Hl, buffer_length. unfold pcm_of_samples. by rewrite length_map. }
  split; [exact Hf|].
  eapply Forall_impl; [exact Hf|]. intros c [[s Hs]|Hc]; [|subst c; unfold pad; lia].
  unfold b64_index in Hs. repeat case_match; simplify_eq; lia.
Qed.

Lemma list_ind2 {A} (P : list A → Prop) :
  P [] → (∀ a, P [a]) → (∀ a b l, P l → P (a :: b :: l)) → ∀ l, P l.
Proof.
  intros H0 H1 H2. fix IH 1. intros [|a [|b l]];
    [exact H0 | apply H1 | apply H2, IH].
Qed.

Lemma int16_view_cons lo hi rest :
  int16_view (lo :: hi :: rest)
  = (int16_of_bytes lo hi :: (int16_view rest).1, (int16_view rest).2).
Proof. cbn [int16_view]. by destruct (int16_view rest). Qed.

Lemma int16_view_shape data :
  length (int16_view data).1 = (length data / 2)%nat
  ∧ Forall int16 (int16_view data).1
  ∧ (Nat.Even (length data) → (int16_view data).2 = [])
  ∧ (Nat.Odd (length data) → ∃ b, (int16_view data).2 = [b]).
Proof.
  induction data as [|a|a b l (IH1 & IH2 & IH3 & IH4)] using list_ind2.
  - repeat split; [constructor|]. intros [k Hk]. cbn in Hk. lia.
  - repeat split; [constructor| |by eexists]. intros [k Hk]. cbn in Hk. lia.
  - rewrite int16_view_cons. cbn [fst snd length].
    change (S (S (length l))) with (1 * 2 + length l)%nat.
    rewrite Nat.div_add_l by lia. split; [by rewrite IH1|].
    split; [constructor; [apply ToInt16_range|exact IH2]|]. split.
    + intros [k Hk]. apply IH3. exists (k - 1)%nat. lia.
    + intros [k Hk]. apply IH4. exists (k - 1)%nat. lia.
Qed.

Lemma int16_view_snoc data b :
  Nat.Even (length data) →
  int16_view (data ++ [b]) = ((int16_view data).1, [b]).
Proof.
  induction data as [|a|a c l IH] using list_ind2; intros He.
  - done.
  - destruct He as [k Hk]. cbn in Hk. lia.
  - cbn [app]. rewrite !int16_view_cons. cbn [fst snd].
    rewrite IH; [done|]. destruct He as [k Hk]. exists (k - 1)%nat.
    cbn [length] in Hk. lia.
Qed.

(** X3.  The two copies of [decodeAudioData] agree on every byte array
    of even length.  With one byte more they part: [new
    Int16Array(data.buffer)] of the mini companion throws, while the
    assistant view, which passes the length [byteLength / 2], decodes
    the whole samples and leaves the odd byte out. *)
Theorem decoders_agree_on_whole_frames
    (data : list Z) (sampleRate : positive) (numChannels : nat) :
  Nat.Even (length data) →
  MiniCompanion.decodeAudioData data sampleRate numChannels
  = LiveView.decodeAudioData data sampleRate numChannels
  ∧ ∀ b,
      MiniCompanion.decodeAudioData (data ++ [b]) sampleRate numChannels = None
      ∧ LiveView.decodeAudioData (data ++ [b]) sampleRate numChannels
        = LiveView.decodeAudioData data sampleRate numChannels.
Proof.
  intros He. unfold MiniCompanion.decodeAudioData, LiveView.decodeAudioData.
  destruct (int16_view_shape data) as (_ & _ & Hev & _).
  specialize (Hev He). split.
  - destruct (int16_view data) as [a tl]. cbn in Hev. by subst tl.
  - intros b. by rewrite int16_view_snoc.
Qed.

Lemma decoders_agree_on_whole_frames_witness :
  MiniCompanion.decodeAudioData [0; 128; 255; 127] 24000 1
  = LiveView.decodeAudioData [0; 128; 255; 127] 24000 1
  ∧ MiniCompanion.decodeAudioData ([0; 128; 255; 127] ++ [9]) 24000 1 = None.
Proof.
  destruct (decoders_agree_on_whole_frames [0; 128; 255; 127] 24000 1) as [H1 H2].
  - by exists 2%nat.
  - split; [exact H1|]. apply (H2 9).
Defined.

Lemma sample_unit v : int16 v → (-1 <= v # 32768)%Q ∧ (v # 32768 < 1)%Q.
Proof. unfold int16, Qle, Qlt. cbn. lia. Qed.

Lemma nth_int16 a i : Forall int16 a → int16 (nth i a 0).
Proof.
  intros Ha. destruct (nth_in_or_default i a 0) as [Hin| ->].
  - rewrite Forall_forall in Ha. by apply Ha, list_elem_of_In.
  - unfold int16. lia.
Qed.

(** X4.  What [decodeAudioData] returns when it returns: there is at
    least one channel and one frame; the buffer has
    floor(bytes / 2 / channels) frames at the rate asked for and one
    array per channel, each of that many samples; sample [i] of channel
    [c] is the 16-bit value at [i * numChannels + c] over 32768, and
    lies in [-1, 1). *)
Theorem decoded_buffer_shape
    (data : list Z) (sampleRate : positive) (numChannels : nat)
    (buffer : AudioBuffer) :
  LiveView.decodeAudioData data sampleRate numChannels = Some buffer →
  (0 < numChannels)%nat
  ∧ (0 < ab_length buffer)%nat
  ∧ ab_length buffer = (length data / 2 / numChannels)%nat
  ∧ ab_sampleRate buffer = sampleRate
  ∧ length (ab_channels buffer) = numChannels
  ∧ (∀ channel samples,
       ab_channels buffer !! channel = Some samples →
       length samples = ab_length buffer
       ∧ (∀ i y, samples !! i = Some y →
            y = (nth (i * numChannels + channel) (int16_view data).1 0 # 32768)
            ∧ (-1 <= y)%Q ∧ (y < 1)%Q)).
Proof.
  unfold LiveView.decodeAudioData, fill_buffer, frame_count.
  destruct (int16_view_shape data) as (Hl & Hi & _).
  set (a := (int16_view data).1) in *. rewrite Hl.
  destruct (numChannels =? 0)%nat eqn:Hn; [done|]. cbn [orb].
  destruct (length data / 2 / numChannels =? 0)%nat eqn:Hf; [done|].
  intros [= <-]. cbn [ab_length ab_sampleRate ab_channels].
  apply Nat.eqb_neq in Hn, Hf.
  split; [by apply Nat.neq_0_lt_0|]. split; [by apply Nat.neq_0_lt_0|].
  split; [done|]. split; [done|].
  split; [by rewrite length_map, length_seq|].
  intros channel samples Hc.
  apply list_lookup_fmap_Some in Hc as (c & -> & Hc).
  apply lookup_seq in Hc as [-> _]. cbn [Nat.add].
  unfold channel_data. split; [by rewrite length_map, length_seq|].
  intros i y Hy.
  change (map ?f ?l) with (f <$> l) in Hy.
  apply list_lookup_fmap_Some in Hy as (j & -> & Hj).
  apply lookup_seq in Hj as [-> _]. cbn [Nat.add].
  split; [done|]. apply sample_unit, nth_int16, Hi.
Qed.

Lemma decoded_buffer_shape_witness :
  ∃ buffer,
    LiveView.decodeAudioData [0; 128; 255; 127; 1; 0; 2; 0] 24000 2 = Some buffer
    ∧ ab_length buffer = 2%nat ∧ length (ab_channels buffer) = 2%nat.
Proof.
  eexists. split; [reflexivity|].
  destruct (decoded_buffer_shape [0; 128; 255; 127; 1; 0; 2; 0] 24000 2 _ eq_refl)
    as (_ & _ & H1 & _ & H2 & _).
  split; [exact H1|exact H2].
Defined.

Lemma pcm_of_decoded a :
  Forall int16 a → pcm_of_samples (map (λ v, v # 32768) a) = a.
Proof.
  induction 1 as [|v a Hv _ IH]; [done|].
  unfold pcm_of_samples in *. cbn [map]. rewrite IH. f_equal.
  unfold store_int16, truncate. cbn.
  rewrite Z.quot_mul by lia. by apply ToInt16_id.
Qed.

(** X5.  Quantization happens once.  For any non-empty array of
    samples, in range or not, the frame of [createBlob] decodes to one
    channel of as many samples, and [createBlob] of these decoded
    samples is the very same frame: decoding and encoding again loses
    nothing more. *)
Theorem decoded_frame_reencodes (samples : list Q) :
  samples ≠ [] →
  ∃ buffer out,
    round_trip MiniCompanion.decodeAudioData samples = Some buffer
    ∧ ab_channels buffer = [out]
    ∧ length out = length samples
    ∧ createBlob out = createBlob samples.
Proof.
  intros Hne.
  assert (pcm_of_samples samples ≠ []) as Hp by (by destruct samples).
  eexists _, _. split.
  { rewrite round_trip_pcm; [by apply fill_buffer_mono|].
    intros bytes Hb. unfold MiniCompanion.decodeAudioData. by rewrite Hb. }
  split; [reflexivity|]. split.
  - unfold pcm_of_samples. by rewrite !length_map.
  - unfold createBlob. by rewrite pcm_of_decoded by apply pcm_int16.
Qed.

Lemma decoded_frame_reencodes_witness :
  ∃ buffer out,
    round_trip MiniCompanion.decodeAudioData [3 # 2; (-7 # 3); 1 # 3]%Q = Some buffer
    ∧ ab_channels buffer = [out]
    ∧ length out = 3%nat
    ∧ createBlob out = createBlob [3 # 2; (-7 # 3); 1 # 3]%Q.
Proof. by apply decoded_frame_reencodes. Defined.

Lemma try_stop_length ns x : length (Playback.try_stop ns x) = length ns.
Proof.
  unfold Playback.try_stop. destruct (ns !! x) as [n|]; [|done].
  destruct (Playback.stop n); [by rewrite length_insert|done].
Qed.

Lemma stop_all_length st : length (Playback.stop_all st) = length (Playback.nodes st).
Proof.
  unfold Playback.stop_all. generalize (Playback.nodes st).
  induction (Playback.sources st) as [|x ss IH]; intros ns; [done|].
  cbn [foldl]. by rewrite IH, try_stop_length.
Qed.

Lemma encode_nonempty bytes text :
  bytes ≠ [] → encode bytes = Some text → decode text = Some bytes → text ≠ [].
Proof. intros Hb _ Hd ->. vm_compute in Hd. congruence. Qed.

(** X6.  A message whose audio has an odd number of bytes (after at
    least one whole sample).  In the mini companion the decoder throws
    inside [onmessage]: nothing is scheduled, the clock has only been
    raised to the present, and the rest of the handler is skipped, so
    that the transcription carried by the same message is lost.  The
    assistant view schedules the whole samples and handles the
    transcription. *)
Theorem odd_frame_divides_the_views (values : list Z) (extra : Z) :
  values ≠ [] → Nat.Even (length values) →
  ∃ text,
    encode (map store_uint8 (values ++ [extra])) = Some text
    ∧ ∀ now m (mini : MiniCompanion.Inbound) (live : LiveView.Inbound),
        Live.inlineData m = Some text →
        let mini' := MiniCompanion.onmessage now m mini in
        let live' := LiveView.onmessage now m live in
        (MiniCompanion.in_transcription mini'
         = MiniCompanion.in_transcription mini
         ∧ Playback.nodes (MiniCompanion.in_playback mini')
           = Playback.nodes (MiniCompanion.in_playback mini)
         ∧ Playback.sources (MiniCompanion.in_playback mini')
           = Playback.sources (MiniCompanion.in_playback mini)
         ∧ Playback.nextStartTime (MiniCompanion.in_playback mini')
           = Qmax (Playback.nextStartTime (MiniCompanion.in_playback mini)) now)
        ∧ (length (Playback.nodes (LiveView.in_playback live'))
           = S (length (Playback.nodes (LiveView.in_playback live)))
           ∧ LiveView.in_transcript live'
             = Transcript.on_message m (LiveView.in_transcript live)).
Proof.
  intros Hne He.
  destruct (decode_encode (map store_uint8 (values ++ [extra])))
    as (text & Henc & Hdec); [apply store_uint8_byte|].
  exists text. split; [done|]. intros now m mini live Hm.
  assert (text ≠ []) as Htext.
  { eapply encode_nonempty; [|done..]. rewrite map_app. by destruct (map _ values). }
  assert (Nat.Even (length (map store_uint8 values))) as He'
    by (by rewrite length_map).
  cbn zeta. unfold MiniCompanion.onmessage, LiveView.onmessage, Playback.on_audio.
  rewrite Hm. destruct text as [|c text]; [done|]. rewrite Hdec.
  cbn [mbind option_bind]. rewrite map_app. cbn [map].
  unfold MiniCompanion.decodeAudioData, LiveView.decodeAudioData.
  rewrite int16_view_snoc by done. cbn [fst snd]. split; [done|].
  destruct (int16_view_shape (map store_uint8 values)) as (Hlen & _).
  rewrite length_map in Hlen.
  assert (2 <= length values)%nat as H2.
  { destruct He as [k Hk]. destruct values; [done|]. cbn [length] in *. lia. }
  assert (1 <= length values / 2)%nat as H1
    by (apply Nat.div_le_lower_bound; lia).
  unfold fill_buffer, frame_count. rewrite Hlen, Nat.div_1_r.
  destruct (length values / 2)%nat as [|n] eqn:E; [lia|].
  cbn [Nat.eqb orb]. cbn [LiveView.in_playback LiveView.in_transcript].
  split; [|done].
  destruct (Live.interrupted m); cbn [LiveView.interrupt Playback.nodes].
  - rewrite stop_all_length. cbn [Playback.schedule Playback.nodes].
    rewrite length_app. cbn. lia.
  - cbn [Playback.schedule Playback.nodes]. rewrite length_app. cbn. lia.
Qed.

Lemma odd_frame_divides_the_views_witness :
  ∃ text,
    encode (map store_uint8 ([0; 128] ++ [9])) = Some text
    ∧ ∀ mini,
        MiniCompanion.in_transcription
          (MiniCompanion.onmessage 1
             {| Live.toolCall := None; Live.inlineData := Some text;
                Live.inputTranscription :=
                  Some {| Live.tr_text := Some (lit "hello") |};
                Live.outputTranscription := None;
                Live.turnComplete := false; Live.interrupted := false |} mini)
        = MiniCompanion.in_transcription mini.
Proof.
  destruct (odd_frame_divides_the_views [0; 128] 9) as (text & Henc & H).
  - done.
  - by exists 1%nat.
  - exists text. split; [exact Henc|]. intros mini.
    by destruct (H 1%Q {| Live.toolCall := None; Live.inlineData := Some text;
                Live.inputTranscription :=
                  Some {| Live.tr_text := Some (lit "hello") |};
                Live.outputTranscription := None;
                Live.turnComplete := false; Live.interrupted := false |}
              mini {| LiveView.in_session := None;
                      LiveView.in_playback := Playback.init;
                      LiveView.in_transcript := Transcript.init |} eq_refl)
      as [[? _] _].
Defined.

End more_codec.

Section more_playback.
Import Codec Playback Eff Tracking.

Lemma times_consecutive cs st i now buffer a b :
  cs !! i = Some (now, buffer) →
  times cs st !! i = Some a → times cs st !! S i = Some b →
  (a + duration buffer <= b)%Q.
Proof.
  intros Hi Ha Hb.
  destruct (times_lookup cs st i now buffer Hi) as [Ha' Hn].
  rewrite Ha in Ha'. injection Ha' as ->.
  destruct (cs !! S i) as [[now' buffer']|] eqn:Hi'.
  - destruct (times_lookup cs st (S i) now' buffer' Hi') as [Hb' _].
    rewrite Hb in Hb'. injection Hb' as ->. rewrite Hn. apply Q.le_max_l.
  - apply lookup_ge_None in Hi'. apply lookup_lt_Some in Hb.
    rewrite times_length in Hb. lia.
Qed.

Lemma times_is_Some cs st i :
  (i < length cs)%nat → is_Some (times cs st !! i).
Proof. intros. apply lookup_lt_is_Some. by rewrite times_length. Qed.

(** X7.  No two chunks overlap, adjacent or not: a chunk scheduled
    later starts no earlier than the end of any chunk scheduled before
    it, whatever the clock readings. *)
Theorem playback_never_overlaps
    (st : Scheduler) (chunks : list (Q * AudioBuffer)) (i j : nat)
    (now : Q) (buffer : AudioBuffer) (a b : Q) :
  (i < j)%nat →
  chunks !! i = Some (now, buffer) →
  starts chunks st !! i = Some a → starts chunks st !! j = Some b →
  (a + duration buffer <= b)%Q.
Proof.
  rewrite starts_times. intros Hij Hi Ha.
  replace j with (S i + (j - S i))%nat by lia.
  generalize (j - S i)%nat. clear Hij j. intros k. revert b.
  induction k as [|k IH]; intros b Hb.
  - rewrite Nat.add_0_r in Hb. by eapply times_consecutive.
  - replace (S i + S k)%nat with (S (S i + k)) in Hb by lia.
    assert (S i + k < length chunks)%nat as Hlt.
    { apply lookup_lt_Some in Hb. rewrite times_length in Hb. lia. }
    destruct (times_is_Some chunks st _ Hlt) as [c Hc].
    destruct (lookup_lt_is_Some_2 chunks _ Hlt) as [[now' buffer'] Hk].
    eapply Qle_trans; [apply (IH c Hc)|].
    eapply Qle_trans; [|eapply times_consecutive; eauto].
    rewrite <- (Qplus_0_r c) at 1. apply Qplus_le_r, duration_nonneg.
Qed.

Lemma playback_never_overlaps_witness :
  let one := {| ab_length := 2; ab_sampleRate := 2; ab_channels := [] |} in
  let chunks := [(0%Q, one); (5%Q, one); (1%Q, one)] in
  (Qmax 0 0 + duration one
   <= Qmax (Qmax (Qmax 0 0 + duration one) 5 + duration one) 1)%Q.
Proof.
  cbn zeta.
  apply (playback_never_overlaps init
           [(0%Q, {| ab_length := 2; ab_sampleRate := 2; ab_channels := [] |});
            (5%Q, {| ab_length := 2; ab_sampleRate := 2; ab_channels := [] |});
            (1%Q, {| ab_length := 2; ab_sampleRate := 2; ab_channels := [] |})]
           0 2 0%Q); [lia|reflexivity..].
Defined.

Lemma Qmax_left x y : (y <= x)%Q → Qmax x y = x.
Proof.
  intros H. unfold Qmax, GenericMinMax.gmax.
  destruct (x ?= y)%Q eqn:E; [done| |done].
  apply Qlt_alt in E. by apply Qle_not_lt in H.
Qed.

(** X8.  When every chunk arrives before the audio scheduled so far has
    played out, the chunks play back to back: each starts exactly at
    [nextStartTime], the end of the one before, and moves
    [nextStartTime] by its own duration. *)
Theorem playback_back_to_back
    (st : Scheduler) (chunks : list (Q * AudioBuffer)) :
  timely chunks st →
  ∀ i now buffer,
    chunks !! i = Some (now, buffer) →
    starts chunks st !! i = Some (nextStartTime (play (take i chunks) st))
    ∧ nextStartTime (play (take (S i) chunks) st)
      = (nextStartTime (play (take i chunks) st) + duration buffer)%Q.
Proof.
  intros Ht i now buffer Hi. rewrite starts_times.
  destruct (times_lookup chunks st i now buffer Hi) as [Ha Hn].
  rewrite Ha, Hn. rewrite Qmax_left by (by eapply Ht). done.
Qed.

Lemma playback_back_to_back_witness :
  let one := {| ab_length := 2; ab_sampleRate := 2; ab_channels := [] |} in
  starts [(0%Q, one); ((1 # 2)%Q, one)] init !! 1%nat
  = Some (0 + duration one)%Q.
Proof.
  cbn zeta.
  set (one := {| ab_length := 2; ab_sampleRate := 2; ab_channels := [] |}).
  assert (timely [(0%Q, one); ((1 # 2)%Q, one)] init) as Ht.
  { intros [|[|i]] now buffer Hi; cbn in Hi; simplify_eq;
      vm_compute; discriminate. }
  exact (proj1 (playback_back_to_back init _ Ht 1%nat (1 # 2)%Q one eq_refl)).
Defined.

(** X9.  After an interruption the schedule starts afresh: the next
    chunk starts at the present reading of the clock, whatever had been
    scheduled before. *)
Theorem interruption_restarts_the_clock
    (st : Scheduler) (now : Q) (buffer : AudioBuffer) :
  (0 <= now)%Q →
  ∃ t, starts [(now, buffer)] (LiveView.interrupt st) = [t] ∧ (t == now)%Q.
Proof.
  intros Hn. rewrite starts_times. cbn. eexists. split; [reflexivity|].
  by apply Q.max_r.
Qed.

Lemma interruption_restarts_the_clock_witness :
  let one := {| ab_length := 2; ab_sampleRate := 2; ab_channels := [] |} in
  ∃ t, starts [(3%Q, one)] (LiveView.interrupt (play [(0%Q, one); (0%Q, one)] init)) = [t]
       ∧ (t == 3)%Q.
Proof. cbn zeta. by apply interruption_restarts_the_clock. Defined.


Lemma steps_agree evs :
  foldl MiniCompanion.step init evs = foldl LiveView.step init evs.
Proof.
  induction evs as [|e evs IH] using rev_ind; [done|].
  rewrite !foldl_app. cbn [foldl]. rewrite <- IH.
  destruct e as [now buffer|x|]; [done|done|].
  cbn [MiniCompanion.step LiveView.step]. unfold exec.
  by rewrite interrupt_started by apply started_reachable.
Qed.

Lemma tracked_step st e : tracked st → tracked (LiveView.step st e).
Proof.
  intros [Hnd Hiff]. unfold tracked.
  destruct e as [now buffer|x|]; cbn [LiveView.step].
  - assert (length (nodes st) ∉ sources st) as Hfresh.
    { intros Hin. apply Hiff in Hin as (n & Hn & _).
      apply lookup_lt_Some in Hn. lia. }
    unfold schedule, set_add. cbn [sources nodes].
    rewrite bool_decide_eq_false_2 by done. split.
    + apply NoDup_app. split; [done|]. split; [|apply NoDup_singleton].
      intros s Hs Hs'. apply list_elem_of_singleton in Hs' as ->. done.
    + intros s. rewrite elem_of_app, list_elem_of_singleton, Hiff. split.
      * intros [(n & Hn & Hs)| ->].
        -- exists n. split; [by apply lookup_app_l_Some|done].
        -- eexists. split.
           ++ rewrite lookup_app_r by done. by rewrite Nat.sub_diag.
           ++ done.
      * intros (n & Hn & Hs).
        destruct (decide (s = length (nodes st))) as [->|Hne]; [by right|].
        left. exists n. split; [|done].
        apply lookup_app_Some in Hn as [Hn|[Hge Hn]]; [done|].
        destruct (s - length (nodes st))%nat eqn:E; [lia|done].
  - unfold on_ended, set_delete. cbn [sources nodes]. split.
    + by apply NoDup_filter.
    + intros s. rewrite list_elem_of_filter, Hiff.
      destruct (decide (s = x)) as [->|Hne].
      * rewrite list_lookup_alter_eq. split; [by intros [? _]|].
        intros (n & Hn & Hs). exfalso.
        destruct (nodes st !! x) as [m|]; [|done]. cbn in Hn.
        injection Hn as <-. unfold finish in Hs.
        destruct m as [? ? []]; cbn in Hs; discriminate.
      * rewrite list_lookup_alter_ne by done.
        split; [by intros [_ ?]|by intros ?; split].
  - unfold LiveView.interrupt. cbn [sources nodes]. split; [constructor|].
    intros s. split; [by intros ?%elem_of_nil|].
    intros (n & Hn & Hs). exfalso. unfold stop_all in Hn.
    rewrite stop_all_lookup in Hn. case_decide as Hin.
    + destruct (nodes st !! s) as [m|]; [|done]. cbn in Hn.
      injection Hn as <-. rewrite halt_state in Hs.
      destruct (state m); discriminate.
    + apply Hin, Hiff. eauto.
Qed.

(** X10.  The set [sources] is exact.  In every state reached from the
    start by chunks, [ended] events and interruptions, the set holds no
    source twice and holds exactly the sources that have been started
    and have neither ended nor been stopped.  The mini companion, whose
    interruption has no [try], goes through the same states as the
    assistant view. *)
Theorem sources_are_the_live_nodes (evs : list Playback.Event) :
  tracked (foldl LiveView.step init evs)
  ∧ foldl MiniCompanion.step init evs = foldl LiveView.step init evs.
Proof.
  split; [|apply steps_agree].
  induction evs as [|e evs IH] using rev_ind.
  - split; [constructor|]. intros s. split; [by intros ?%elem_of_nil|].
    by intros (n & Hn & _).
  - rewrite foldl_app. by apply tracked_step.
Qed.

End more_playback.

Section more_transport.
Import Js Codec Live Transport Settled.

Lemma step_sent c e : sent c `prefix_of` sent (step c e).
Proof.
  destruct e as [inputData| |]; cbn [step].
  - unfold onaudioprocess. destruct (createBlob inputData); [|done].
    unfold then_send. destruct (promise c); cbn; [done|by eexists|done].
  - unfold fulfil. destruct (promise c); cbn; [by eexists|done..].
  - unfold reject. by destruct (promise c).
Qed.

Lemma step_settled c e :
  promise c ≠ Pending → promise (step c e) = promise c.
Proof.
  intros Hp. destruct e as [inputData| |]; cbn [step].
  - unfold onaudioprocess. destruct (createBlob inputData); [|done].
    unfold then_send. by destruct (promise c) eqn:E; cbn; rewrite ?E.
  - unfold fulfil. by destruct (promise c) eqn:E; cbn; rewrite ?E.
  - unfold reject. by destruct (promise c) eqn:E; cbn; rewrite ?E.
Qed.

(** X11.  The session promise settles once and nothing sent is taken
    back: over any events, what had been sent stays a prefix of what
    has been sent; a promise that is fulfilled or rejected stays so;
    and as long as the promise is still pending nothing more has been
    sent. *)
Theorem promise_settles_once (c : Connection) (evs : list Transport.Event) :
  sent c `prefix_of` sent (run evs c)
  ∧ (promise c ≠ Pending → promise (run evs c) = promise c)
  ∧ (promise (run evs c) = Pending → promise c = Pending ∧ sent (run evs c) = sent c).
Proof.
  unfold run. induction evs as [|e evs (IH1 & IH2 & IH3)] using rev_ind.
  - done.
  - rewrite foldl_app. cbn [foldl]. split; [|split].
    + etrans; [exact IH1|apply step_sent].
    + intros Hp. rewrite step_settled; [by apply IH2|]. by rewrite IH2.
    + intros Hp. set (d := foldl step c evs) in *.
      assert (promise d = Pending) as Hd.
      { destruct (promise d) eqn:E; [done|..];
          rewrite step_settled in Hp by (by rewrite E); congruence. }
      destruct (IH3 Hd) as [-> <-]. split; [done|].
      destruct e as [inputData| |]; cbn [step] in *.
      * unfold onaudioprocess in *. destruct (createBlob inputData); [|done].
        unfold then_send in *. by rewrite Hd in *.
      * unfold fulfil in *. by rewrite Hd in *.
      * unfold reject in *. by rewrite Hd in *.
Qed.

Lemma run_quiet evs : quiet (run evs connecting).
Proof.
  unfold run. induction evs as [|e evs IH] using rev_ind; [done|].
  rewrite foldl_app. cbn [foldl]. set (d := foldl step connecting evs) in *.
  unfold quiet in *. destruct e as [inputData| |]; cbn [step].
  - unfold onaudioprocess. destruct (createBlob inputData); [|done].
    unfold then_send. by destruct (promise d) eqn:E; cbn; rewrite ?E.
  - unfold fulfil. by destruct (promise d) eqn:E; cbn; rewrite ?E.
  - unfold reject. by destruct (promise d) eqn:E; cbn; rewrite ?E.
Qed.

(** X12.  When the connection is refused, every frame is lost without a
    sign: once the promise is rejected, nothing has been sent, nothing
    is queued, and no later capture or resolution changes that. *)
Theorem rejected_connection_sends_nothing (before after : list Transport.Event) :
  promise (run before connecting) = Rejected →
  run (before ++ after) connecting = run before connecting
  ∧ sent (run (before ++ after) connecting) = []
  ∧ reactions (run (before ++ after) connecting) = [].
Proof.
  intros Hp.
  assert (run (before ++ after) connecting = run before connecting) as ->.
  { unfold run in *. rewrite foldl_app.
    set (d := foldl step connecting before) in *. clearbody d.
    induction after as [|e after IH] using rev_ind; [done|].
    rewrite foldl_app. cbn [foldl]. rewrite IH.
    destruct e as [inputData| |]; cbn [step].
    - unfold onaudioprocess. destruct (createBlob inputData); [|done].
      unfold then_send. by rewrite Hp.
    - unfold fulfil. by rewrite Hp.
    - unfold reject. by rewrite Hp. }
  split; [done|].
  pose proof (run_quiet before) as H. unfold quiet in H. by rewrite Hp in H.
Qed.

Lemma rejected_connection_sends_nothing_witness :
  sent (run ([Capture [0%Q]; Reject] ++ [Capture [(1 # 2)%Q]; Resolve]) connecting) = [].
Proof.
  by destruct (rejected_connection_sends_nothing
                 [Capture [0%Q]; Reject] [Capture [(1 # 2)%Q]; Resolve] eq_refl)
    as (_ & H & _).
Defined.

End more_transport.

Section more_tools.
Import Js Codec Live Transport Eff Settled.

Lemma handle_all calls : ∀ c,
  foldl (λ c fc, LiveView.handleAssistantToolCall fc c) (Some c) calls
  = Some (foldl (λ c fc, then_send (ok_response fc) c) c calls).
Proof. induction calls as [|fc calls IH]; intros c; [done|]. cbn. apply IH. Qed.

Lemma then_send_all os : ∀ c,
  let c' := foldl (λ c o, then_send o c) c os in
  promise c' = promise c
  ∧ match promise c with
    | Pending => sent c' = sent c ∧ reactions c' = reactions c ++ os
    | Fulfilled => sent c' = sent c ++ os ∧ reactions c' = reactions c
    | Rejected => c' = c
    end.
Proof.
  induction os as [|o os IH]; intros c; cbn zeta; cbn [foldl].
  - destruct (promise c); by rewrite ?app_nil_r.
  - destruct (IH (then_send o c)) as [Hp H]. rewrite Hp.
    unfold then_send in *. destruct (promise c) eqn:E; cbn in *.
    + split; [done|]. destruct H as [-> ->]. by rewrite <- app_assoc.
    + split; [done|]. destruct H as [-> ->]. by rewrite <- app_assoc.
    + rewrite E in H. by rewrite E.
Qed.

(** X13.  The tool calls of one message, in the assistant view with tool
    support: each is answered with the result "ok" under its own id and
    name, in the order of the message, whether or not the audio of the
    same message decodes.  On an open session the answers are sent at
    once; while the promise is pending nothing is sent and they go out,
    after what was queued before, when it is fulfilled; on a rejected
    promise they are dropped. *)
Theorem tool_calls_answered_in_order
    (now : Q) (m : LiveServerMessage) (s : LiveView.Inbound)
    (calls : list FunctionCall) (c : Connection) :
  toolCall m = Some calls → LiveView.in_session s = Some c →
  ∃ c', LiveView.in_session (LiveView.onmessage now m s) = Some c'
    ∧ promise c' = promise c
    ∧ (promise c = Fulfilled →
       sent c' = sent c ++ map ok_response calls)
    ∧ (promise c = Pending →
       sent c' = sent c
       ∧ sent (fulfil c') = sent c ++ reactions c ++ map ok_response calls)
    ∧ (promise c = Rejected → c' = c).
Proof.
  intros Hm Hs.
  exists (foldl (λ c o, then_send o c) c (map ok_response calls)).
  assert (LiveView.in_session (LiveView.onmessage now m s)
          = Some (foldl (λ c o, then_send o c) c (map ok_response calls))) as ->.
  { unfold LiveView.onmessage. rewrite Hm, Hs, handle_all.
    rewrite (foldl_fmap (λ c o, then_send o c)).
    by destruct (Playback.on_audio _ _ _ _) as [[]]. }
  split; [done|].
  destruct (then_send_all (map ok_response calls) c) as [Hp H].
  split; [done|]. split; [|split]; intros E; rewrite E in H.
  - apply H.
  - destruct H as [H1 H2]. split; [done|].
    unfold fulfil. rewrite Hp, E. cbn. by rewrite H1, H2.
  - done.
Qed.

Lemma tool_calls_answered_in_order_witness :
  let fc1 := {| fc_id := lit "1"; fc_name := lit "start_quiz"; fc_args := None |} in
  let fc2 := {| fc_id := lit "2"; fc_name := lit "go_home"; fc_args := None |} in
  let m := {| toolCall := Some [fc1; fc2]; inlineData := None;
              inputTranscription := None; outputTranscription := None;
              turnComplete := false; interrupted := false |} in
  let s := {| LiveView.in_session := Some connecting;
              LiveView.in_playback := Playback.init;
              LiveView.in_transcript := Transcript.init |} in
  ∃ c', LiveView.in_session (LiveView.onmessage 0 m s) = Some c'
        ∧ sent c' = []
        ∧ sent (fulfil c') = [ok_response fc1; ok_response fc2].
Proof.
  cbn zeta.
  destruct (tool_calls_answered_in_order 0
    {| toolCall := Some [{| fc_id := lit "1"; fc_name := lit "start_quiz"; fc_args := None |};
                         {| fc_id := lit "2"; fc_name := lit "go_home"; fc_args := None |}];
       inlineData := None;
       inputTranscription := None; outputTranscription := None;
       turnComplete := false; interrupted := false |}
    {| LiveView.in_session := Some connecting;
       LiveView.in_playback := Playback.init;
       LiveView.in_transcript := Transcript.init |}
    _ connecting eq_refl eq_refl) as (c' & H1 & _ & _ & H2 & _).
  exists c'. split; [exact H1|]. exact (H2 eq_refl).
Defined.

Import MiniCompanion.

Local Opaque lit.

Ltac here := repeat first [apply list_elem_of_here | apply list_elem_of_further].

(** X14.  A tool call needs its arguments.  In the mini companion an
    invocation of [generate_notes], [start_quiz] or [solve_doubt]
    without an arguments object throws at the template literal, before
    the response is handed to the session: the invocation is never
    answered, and nothing is queued on the session promise for it. *)
Theorem tool_call_without_arguments_is_dropped (fc : FunctionCall) (a : Companion) :
  reads_args (fc_name fc) → fc_args fc = None →
  returns (handleAssistantToolCall fc) a = false
  ∧ sessionPromise (exec (handleAssistantToolCall fc) a) = sessionPromise a
  ∧ outbox (exec (handleAssistantToolCall fc) a) = outbox a
  ∧ motivations (exec (handleAssistantToolCall fc) a) = motivations a.
Proof.
  intros Hr Ha. unfold reads_args in Hr.
  unfold handleAssistantToolCall, dispatch, named, returns, exec, arg, outbox.
  rewrite Ha.
  repeat (apply elem_of_cons in Hr as [Hr|Hr];
          [rewrite Hr;
           repeat (case_bool_decide as Hn; [try (vm_compute in Hn; discriminate Hn)|]);
           try done|]).
  by apply elem_of_nil in Hr.
Qed.

Local Transparent lit.

Lemma tool_call_without_arguments_is_dropped_witness :
  let fc := {| fc_id := lit "7"; fc_name := lit "start_quiz"; fc_args := None |} in
  let a := {| view := DASHBOARD; motivations := 0;
              sessionPromise :=
                Some {| promise := Fulfilled; reactions := []; sent := [] |} |} in
  returns (handleAssistantToolCall fc) a = false
  ∧ outbox (exec (handleAssistantToolCall fc) a) = []
  ∧ view (exec (handleAssistantToolCall fc) a) = QUIZ.
Proof.
  cbn zeta.
  destruct (tool_call_without_arguments_is_dropped
              {| fc_id := lit "7"; fc_name := lit "start_quiz"; fc_args := None |}
              {| view := DASHBOARD; motivations := 0;
                 sessionPromise :=
                   Some {| promise := Fulfilled; reactions := []; sent := [] |} |})
    as (H1 & _ & H2 & _).
  - unfold reads_args. here.
  - reflexivity.
  - split; [exact H1|]. split; [exact H2|reflexivity].
Defined.

End more_tools.

Section more_lifecycle.
Import Playback Eff Lifecycle Remote.

Ltac run_eff :=
  unfold mbind, M_bind, mret, M_ret, bind, ret, gets, modify, try_catch,
    await_close, call, throw, exec, returns in *.

Ltac tidy_sets :=
  rewrite ?difference_diag_L, ?(left_id_L (∅ : gset nat) (∪)).

(** X15.  Stopping twice is safe.  After a [stopLiveSession] that went
    through, a second one finds every ref empty: it touches no device,
    whatever the platform would throw, returns, and only goes to closed
    again (the view with playback clears its playback state once
    more). *)
Theorem second_stop_is_silent (throws : Call → bool) (st : State) :
  (let once := exec (AssistantView.stopLiveSession reliable) st in
   let twice := exec (AssistantView.stopLiveSession throws) once in
   returns (AssistantView.stopLiveSession throws) once = true
   ∧ devices twice = devices once
   ∧ phases twice = phases once ++ [ToClosed])
  ∧ (let once := exec (LiveView.stopLiveSession reliable) st in
     let twice := exec (LiveView.stopLiveSession throws) once in
     returns (LiveView.stopLiveSession throws) once = true
     ∧ devices twice = devices once
     ∧ phases twice = phases once ++ [ClearPlayback; ToClosed]).
Proof.
  destruct st as [pb pr sr spr live status [m c p n] ph].
  unfold AssistantView.stopLiveSession, LiveView.stopLiveSession. run_eff.
  split.
  - destruct pr as [x|], sr as [y|], spr as [[z|]|]; cbn;
      destruct (throws Suspend); cbn; rewrite <- ?app_assoc; done.
  - destruct pr as [x|], sr as [y|], spr as [[z|]|]; cbn;
      rewrite <- ?app_assoc; done.
Qed.

(** X16.  [disconnect()] and [track.stop()] are not in a [try].  When
    one of them throws, [stopLiveSession] ends there: the microphone
    stream is still held and its ref still set, the session is neither
    closed nor forgotten, the surface is as live as it was, and the
    status stays at STOPPING. *)
Theorem teardown_stuck_on_throw (throws : Call → bool) (st : State) (p s : nat) :
  scriptProcessorRef st = Some p → streamRef st = Some s →
  throws (Disconnect p) = true ∨ throws (TrackStop s) = true →
  let st' := exec (AssistantView.stopLiveSession throws) st in
  returns (AssistantView.stopLiveSession throws) st = false
  ∧ statusText st' = Stopping
  ∧ isLive st' = isLive st
  ∧ streamRef st' = Some s
  ∧ sessionPromiseRef st' = sessionPromiseRef st
  ∧ mics (devices st') = mics (devices st)
  ∧ conns (devices st') = conns (devices st)
  ∧ ToClosed ∉ drop (length (phases st)) (phases st').
Proof.
  destruct st as [pb pr sr spr live status [m c pp n] ph]. cbn.
  intros -> -> H. unfold AssistantView.stopLiveSession. run_eff. cbn.
  destruct (throws (Disconnect p)) eqn:Hd; cbn.
  - repeat split. rewrite drop_all. by intros ?%elem_of_nil.
  - destruct H as [H|H]; [done|]. rewrite H. cbn.
    repeat split. rewrite drop_app_length.
    intros Hin. apply list_elem_of_singleton in Hin. discriminate.
Qed.

Lemma teardown_stuck_on_throw_witness :
  let st := AssistantView.startLiveSession true init in
  let st' := exec (AssistantView.stopLiveSession faulty_disconnect) st in
  statusText st' = Stopping ∧ isLive st' = true
  ∧ mics (devices st') = mics (devices st).
Proof.
  cbn zeta.
  destruct (teardown_stuck_on_throw faulty_disconnect
              (AssistantView.startLiveSession true init) 2 0 eq_refl eq_refl
              (or_introl eq_refl))
    as (_ & H1 & H2 & _ & _ & H3 & _).
  split; [exact H1|]. split; [exact H2|exact H3].
Defined.

Lemma toggle_live_holds mic st :
  live_holds (AssistantView.toggleLiveMode mic st).
Proof.
  destruct st as [pb pr sr spr live status [m c p n] ph].
  unfold live_holds, AssistantView.toggleLiveMode. cbn.
  destruct live.
  - unfold AssistantView.stopLiveSession. run_eff.
    destruct pr as [x|], sr as [y|], spr as [[z|]|]; cbn; done.
  - unfold AssistantView.startLiveSession. destruct mic; cbn; [|done].
    intros _. repeat split; eauto.
Qed.

Lemma toggles_live_holds mics : live_holds (AssistantView.toggles mics init).
Proof.
  induction mics as [|mic mics _] using rev_ind; [done|].
  unfold AssistantView.toggles. rewrite foldl_app. apply toggle_live_holds.
Qed.

(** X17.  The flag tells the truth after toggles.  After any sequence of
    [toggleLiveMode] calls, each settled before the next: when the view
    is live, exactly one microphone stream, one connection and one
    script processor are live; when it is not, none is; and a toggle on
    which the microphone is refused always leaves the view not live. *)
Theorem live_means_one_of_each (mics : list bool) :
  let st := AssistantView.toggles mics init in
  (isLive st = true →
   ∃ stream connection processor,
     Lifecycle.mics (devices st) = {[stream]}
     ∧ conns (devices st) = {[connection]}
     ∧ procs (devices st) = {[processor]})
  ∧ (isLive st = false → cleared st)
  ∧ isLive (AssistantView.toggleLiveMode false st) = false.
Proof.
  cbn zeta. destruct (toggles_accounted mics) as [(Hm & Hc & Hp) Hi].
  pose proof (toggles_live_holds mics) as Hl.
  set (st := AssistantView.toggles mics init) in *. split; [|split].
  - intros Hlive. destruct (Hl Hlive) as ([s Hs] & [p Hpr] & [c Hcn]).
    exists s, c, p. by rewrite Hm, Hc, Hp, Hs, Hpr, Hcn.
  - intros Hlive. destruct (Hi Hlive) as (Hs & Hsp & Hpr).
    unfold cleared. by rewrite Hm, Hc, Hp, Hs, Hsp, Hpr.
  - unfold AssistantView.toggleLiveMode. destruct (isLive st) eqn:Hlive.
    + assert (accounted st) as Ha by done.
      by destruct (assistant_stop st Ha) as (_ & _ & ?).
    + by destruct st.
Qed.

Lemma toggle_numbered mic st :
  numbered st → numbered (AssistantView.toggleLiveMode mic st).
Proof.
  destruct st as [pb pr sr spr live status [m c p n] ph].
  unfold numbered, AssistantView.toggleLiveMode. cbn. intros Hn.
  destruct live.
  - unfold AssistantView.stopLiveSession. run_eff.
    destruct pr as [x|], sr as [y|], spr as [[z|]|]; cbn;
      intros k Hk; apply Hn; rewrite !elem_of_union in *;
      rewrite ?elem_of_difference in Hk; tauto.
  - unfold AssistantView.startLiveSession. destruct mic; cbn; [|done].
    intros k Hk.
    assert (k ∈ m ∪ c ∪ p ∨ k = n ∨ k = S n ∨ k = S (S n)) as [H|H].
    { rewrite !elem_of_union, !elem_of_singleton in *. tauto. }
    + specialize (Hn k H). lia.
    + lia.
Qed.

Lemma toggles_numbered mics : numbered (AssistantView.toggles mics init).
Proof.
  induction mics as [|mic mics IH] using rev_ind.
  - intros x Hx. cbn in Hx. rewrite !elem_of_union in Hx.
    destruct Hx as [[Hx|Hx]|Hx]; by apply elem_of_empty in Hx.
  - unfold AssistantView.toggles in *. rewrite foldl_app.
    by apply toggle_numbered.
Qed.

(** X18.  [onclose] only resets the flags.  When the remote end closes a
    live session, the view shows inactive while the microphone stream
    stays live and the script processor stays connected; the next
    [toggleLiveMode] then starts a session without stopping them, and
    two microphone streams and two processors are live. *)
Theorem remote_close_keeps_the_microphone (mics : list bool) :
  let st := AssistantView.toggles mics init in
  isLive st = true →
  let closed := onclose st in
  let again := AssistantView.toggleLiveMode true closed in
  isLive closed = false
  ∧ statusText closed = Inactive
  ∧ size (Lifecycle.mics (devices closed)) = 1%nat
  ∧ size (procs (devices closed)) = 1%nat
  ∧ isLive again = true
  ∧ size (Lifecycle.mics (devices again)) = 2%nat
  ∧ size (procs (devices again)) = 2%nat.
Proof.
  cbn zeta. intros Hlive.
  destruct (toggles_accounted mics) as [(Hm & Hc & Hp) _].
  pose proof (toggles_live_holds mics) as Hl.
  pose proof (toggles_numbered mics) as Hn.
  set (st := AssistantView.toggles mics init) in *.
  destruct (Hl Hlive) as ([s Hs] & [p Hpr] & [c Hcn]).
  destruct st as [pb pr sr spr live status [m cs ps n] ph].
  cbn in *. subst. unfold numbered in Hn. cbn in Hn.
  unfold AssistantView.toggleLiveMode, AssistantView.startLiveSession. cbn.
  rewrite !size_singleton.
  assert (s < n)%nat as Hsn.
  { apply Hn. rewrite !elem_of_union, !elem_of_singleton. tauto. }
  assert (p < n)%nat as Hpn.
  { apply Hn. rewrite !elem_of_union, !elem_of_singleton. tauto. }
  repeat split.
  - rewrite size_union by (apply disjoint_singleton_l, not_elem_of_singleton; lia).
    by rewrite !size_singleton.
  - rewrite size_union by (apply disjoint_singleton_l, not_elem_of_singleton; lia).
    by rewrite !size_singleton.
Qed.

Lemma remote_close_keeps_the_microphone_witness :
  let closed := onclose (AssistantView.toggles [true] init) in
  isLive closed = false
  ∧ size (Lifecycle.mics (devices closed)) = 1%nat
  ∧ size (Lifecycle.mics (devices (AssistantView.toggleLiveMode true closed)))
    = 2%nat.
Proof.
  cbn zeta.
  destruct (remote_close_keeps_the_microphone [true] eq_refl)
    as (H1 & _ & H2 & _ & _ & H3 & _).
  split; [exact H1|]. split; [exact H2|exact H3].
Defined.

(** X19.  [onerror] runs the whole teardown.  Whenever it fires after
    any sequence of toggles, on a platform whose calls return, no
    device is live afterwards, every ref is empty and the view is
    inactive. *)
Theorem error_tears_everything_down (mics : list bool) :
  let st := onerror reliable (AssistantView.toggles mics init) in
  cleared st ∧ isLive st = false ∧ statusText st = Inactive
  ∧ streamRef st = None ∧ scriptProcessorRef st = None
  ∧ sessionPromiseRef st = None.
Proof.
  cbn zeta. destruct (toggles_accounted mics) as [Ha _].
  set (st := AssistantView.toggles mics init) in *. unfold onerror.
  destruct st as [pb pr sr spr live status [m c p n] ph].
  unfold accounted, cleared in *. cbn in *. destruct Ha as (-> & -> & ->).
  unfold AssistantView.stopLiveSession. run_eff.
  destruct pr as [x|], sr as [y|], spr as [[z|]|]; cbn; tidy_sets; done.
Qed.




End more_lifecycle.

Section more_text.
Import Js Live Transcript.

(** X21.  [trim] removes whitespace at the two ends and nothing else:
    every string is whitespace, then its trimmed text, then whitespace;
    the trimmed text has no whitespace at either end; and trimming
    again changes nothing. *)
Theorem trim_takes_whitespace_off_the_ends (s : jsstring) :
  (∃ before after,
     s = before ++ trim s ++ after ∧ all_white before ∧ all_white after)
  ∧ trimmed (trim s)
  ∧ trim (trim s) = trim s.
Proof.
  assert (∀ t, trimmed t → trim t = t) as Hfix.
  { intros t [H1 H2]. unfold trim, trim_end.
    assert (∀ u, starts_white u = false → trim_start u = u) as Hu.
    { intros [|c u]; [done|]. cbn. by intros ->. }
    by rewrite (Hu t H1), (Hu _ H2), rev_involutive. }
  split; [|split; [apply trim_trimmed|apply Hfix, trim_trimmed]].
  apply trim_parts.
Qed.

End more_text.

Section more_transcript.
Import Js Live Transcript Partial.

Lemma pending_from_app cur evs e :
  pending_from cur (evs ++ [e])
  = match e with
    | TurnComplete => []
    | _ => pending_from cur evs ++ [e]
    end.
Proof.
  revert cur. induction evs as [|x evs IH]; intros cur.
  - by destruct e.
  - destruct x; cbn [app pending_from]; apply IH.
Qed.

Lemma last_user_app old turn e :
  last_user old (turn ++ [e])
  = match e with PartialUser t => t | _ => last_user old turn end.
Proof.
  revert old. induction turn as [|x turn IH]; intros old.
  - by destruct e.
  - destruct x; cbn [app last_user]; apply IH.
Qed.

(** X22.  What the mini companion displays during a turn: as its user
    line the last user fragment received since the last turn-complete
    (each fragment replaces the one before), as its assistant line all
    assistant fragments since then, concatenated; both are empty right
    after a turn-complete. *)
Theorem companion_shows_the_pending_turn (evs : list Transcript.Event) :
  shown evs
  = {| MiniCompanion.vt_user := last_user [] (pending evs);
       MiniCompanion.vt_ai := ai_fragments (pending evs) |}.
Proof.
  unfold shown, pending. induction evs as [|e evs IH] using rev_ind; [done|].
  rewrite foldl_app, pending_from_app. cbn [foldl]. rewrite IH.
  destruct e as [t|t|]; [| |done];
    rewrite last_user_app, ai_fragments_app; cbn; by rewrite ?app_nil_r.
Qed.

Lemma run_pending evs :
  let a := run evs init in
  userTextBuffer a = user_fragments (pending evs)
  ∧ aiTextBuffer a = ai_fragments (pending evs)
  ∧ currentTurnUserText a = userTextBuffer a
  ∧ currentTurnAiText a = aiTextBuffer a.
Proof.
  cbn zeta. unfold run, pending.
  induction evs as [|e evs (IH1 & IH2 & IH3 & IH4)] using rev_ind; [done|].
  rewrite foldl_app, pending_from_app. cbn [foldl].
  set (a := foldl _ init evs) in *.
  destruct e as [t|t|]; [| |done];
    rewrite user_fragments_app, ai_fragments_app; cbn;
    rewrite ?app_nil_r, ?IH1, ?IH2; repeat split; congruence.
Qed.

(** X23.  What the assistant view holds during a turn.  From the mount
    of the view and through any messages, toggles, closes and errors:
    its two buffers are the concatenations of the user fragments and of
    the assistant fragments received since the last turn-complete (or
    the mount), whatever the sessions they came in, a transcription
    without text counting as the fragment [undefined]; and the two
    texts on display are always equal to the buffers.  A stop and a
    start in the middle of a turn change none of it. *)
Theorem assistant_shows_the_pending_turn (hs : list Mounted.Happening) :
  let a := Mounted.transcript (Mounted.life hs) in
  (userTextBuffer a = user_fragments (pending (Mounted.heard hs))
   ∧ aiTextBuffer a = ai_fragments (pending (Mounted.heard hs))
   ∧ currentTurnUserText a = userTextBuffer a
   ∧ currentTurnAiText a = aiTextBuffer a)
  ∧ Mounted.transcript
      (Mounted.life (hs ++ [Mounted.Toggle true; Mounted.Toggle true]))
    = a.
Proof.
  cbn zeta. split.
  - rewrite life_heard. apply run_pending.
  - unfold Mounted.life. by rewrite foldl_app.
Qed.

End more_transcript.

Section more_chat.
Import Js Transcript Chat.

(** X24.  The written chat.  Over any typing and sending, the log grows
    by exactly two entries for each send whose text is not blank, and
    by none for a blank one: the text of the field as typed, not
    trimmed, under the role user, then the answer of the service, or
    the apology when the call failed, under the role ai. *)
Theorem chat_log_of_exchanges (c : Chat) (inputs : list Input) :
  let c' := foldl Chat.step c inputs in
  let sends := exchanges (chatMsg c) inputs in
  chatHistory c' = chatHistory c ++ concat (entries <$> sends)
  ∧ length (chatHistory c') = (length (chatHistory c) + 2 * length sends)%nat
  ∧ Forall (λ e, trim e.1 ≠ []) sends.
Proof.
  cbn zeta. revert c. induction inputs as [|i inputs IH]; intros c.
  - cbn. rewrite app_nil_r. split; [done|]. split; [lia|constructor].
  - destruct i as [text|response]; cbn [foldl Chat.step exchanges].
    + apply (IH {| chatMsg := text; chatHistory := chatHistory c;
                   chatLoading := chatLoading c |}).
    + unfold handleSendChat. destruct (truthy (trim (chatMsg c))) eqn:E.
      * destruct (IH {| chatMsg := [];
                        chatHistory :=
                          (chatHistory c ++ [{| role := user; text := chatMsg c |}])
                          ++ [{| role := ai; text := default apology response |}];
                        chatLoading := false |}) as (H1 & H2 & H3).
        cbn [chatMsg chatHistory] in *. split; [|split].
        -- rewrite H1. cbn. by rewrite <- !app_assoc.
        -- rewrite H2, !length_app. cbn. lia.
        -- constructor; [|done]. cbn. by apply truthy_nonempty.
      * apply IH.
Qed.

End more_chat.

Section more_state.
Import MiniCompanion AppState.
Context {Note QuizAttempt StudyPlan : Type}.

(** X25.  The reducers of the application state only append.  After any
    sequence of actions, the notes, the quiz attempts and the study
    plans are the initial ones followed by the saved ones in order,
    nothing is dropped or reordered; the streak and the date of last
    activity are untouched; and the theme is the initial one after an
    even number of toggles, the other one after an odd number. *)
Theorem reducers_accumulate
    (actions : list (Action Note QuizAttempt StudyPlan))
    (s : AppState Note QuizAttempt StudyPlan) :
  let s' := run actions s in
  notes s' = notes s ++ saved_notes actions
  ∧ quizHistory s' = quizHistory s ++ saved_attempts actions
  ∧ studyPlans s' = studyPlans s ++ saved_plans actions
  ∧ streak s' = streak s
  ∧ lastActive s' = lastActive s
  ∧ theme s' = (if Nat.even (toggles actions) then theme s
                else theme (toggleTheme s)).
Proof.
  cbn zeta. unfold run, saved_notes, saved_attempts, saved_plans, toggles.
  induction actions as [|a actions (H1 & H2 & H3 & H4 & H5 & H6)] using rev_ind.
  - cbn. by rewrite !app_nil_r.
  - rewrite foldl_app, !bind_app, filter_app, length_app. cbn [foldl].
    set (t := foldl step s actions) in *.
    destruct a; cbn; rewrite ?app_nil_r, ?app_assoc, ?Nat.add_0_r;
      rewrite ?H1, ?H2, ?H3, ?H4, ?H5, ?H6; repeat split; try done.
    rewrite Nat.add_1_r, Nat.even_succ, <- Nat.negb_even.
    destruct (Nat.even _); cbn; by destruct (theme s).
Qed.

End more_state.

Section more_speech.
Import Js Codec Transcript Speech RoundTrip.

(** X26.  The text sent to the speech model: at most 503 code units; its
    first 500 are those of the text; a text of at most 500 code units
    goes unchanged; and cutting a text that was cut changes nothing. *)
Theorem safeText_bounded (text : jsstring) :
  (length (safeText text) ≤ 503)%nat
  ∧ take 500 (safeText text) = take 500 text
  ∧ safeText (safeText text) = safeText text
  ∧ ((length text ≤ 500)%nat → safeText text = text).
Proof.
  unfold safeText. destruct (500 <? length text)%nat eqn:E.
  - apply Nat.ltb_lt in E.
    assert (length (take 500 text) = 500%nat) as Hl
      by (rewrite length_take; lia).
    split; [rewrite length_app, Hl; cbn; lia|]. split; [|split].
    + rewrite take_app_le by lia. rewrite take_take. f_equal.
    + rewrite length_app, Hl. cbn [length lit Nat.add].
      replace (500 <? 500 + 3)%nat with true by (symmetry; apply Nat.ltb_lt; lia).
      rewrite take_app_le by lia. rewrite take_take.
      by replace (500 `min` 500)%nat with 500%nat by lia.
    + lia.
  - apply Nat.ltb_ge in E.
    split; [lia|]. split; [done|]. split; [|done].
    by replace (500 <? length text)%nat with false by (symmetry; apply Nat.ltb_ge; lia).
Qed.


Lemma duration_of_frame samples message history :
  samples ≠ [] →
  ∃ blob,
    createBlob samples = Some blob
    ∧ handleSpeakText message (Some (data blob)) history
      = (Z.of_nat (length samples) # 24000, history).
Proof.
  intros Hne.
  assert (pcm_of_samples samples ≠ []) as Hp by (by destruct samples).
  assert (round_trip MiniCompanion.decodeAudioData samples
          = fill_buffer (pcm_of_samples samples) 24000 1) as Hrt.
  { apply round_trip_pcm. intros bytes Hb.
    unfold MiniCompanion.decodeAudioData. by rewrite Hb. }
  rewrite fill_buffer_mono in Hrt by done.
  unfold round_trip in Hrt.
  destruct (createBlob samples) as [blob|] eqn:Hblob; [|done].
  exists blob. split; [done|]. cbn [mbind option_bind] in Hrt.
  change (option_bind _ _ ?f ?x) with (x ≫= f) in Hrt.
  assert (decode []
          ≫= (λ bytes, MiniCompanion.decodeAudioData bytes 24000%positive 1%nat)
          = None) as Hnone by (by vm_compute).
  unfold handleSpeakText. destruct (data blob) as [|c d] eqn:Hd.
  - rewrite Hnone in Hrt. discriminate Hrt.
  - rewrite Hrt. unfold duration. cbn [ab_length ab_sampleRate].
    unfold pcm_of_samples. by rewrite length_map.
Qed.

(** X27.  What [handleSpeakText] returns.  The duration is never
    negative.  The chat log is left as it was, or gets exactly one
    entry of the assistant, the voice error with a reason that is never
    empty, and the duration is then 0.  Without audio the result is 0
    and the log is unchanged.  And
    for the frame of any n >= 1 samples the result is n / 24000
    seconds. *)
Theorem speech_outcomes
    (message : jsstring) (base64Audio : option jsstring)
    (history : list Message) :
  let out := handleSpeakText message base64Audio history in
  (0 <= out.1)%Q
  ∧ (out.2 = history
     ∨ out.1 = 0%Q
       ∧ out.2 = history
                 ++ [{| role := ai;
                        text := lit "(Voice error: " ++ error_text message
                                ++ lit ")" |}]
       ∧ error_text message ≠ [])
  ∧ (base64Audio = None ∨ base64Audio = Some [] → out = (0%Q, history))
  ∧ (∀ samples, samples ≠ [] →
       ∃ blob, createBlob samples = Some blob
               ∧ handleSpeakText message (Some (data blob)) history
                 = (Z.of_nat (length samples) # 24000, history)).
Proof.
  cbn zeta. split; [|split; [|split]].
  - unfold handleSpeakText. destruct base64Audio as [[|c b]|]; [done| |done].
    destruct (_ ≫= _) as [buffer|]; [|done]. cbn. apply duration_nonneg.
  - unfold handleSpeakText. destruct base64Audio as [[|c b]|]; [by left| |by left].
    destruct (_ ≫= _) as [buffer|]; [by left|]. right. split; [done|].
    split; [done|]. unfold error_text. by destruct message.
  - by intros [->| ->].
  - intros samples Hne. by apply duration_of_frame.
Qed.

End more_speech.

Section more_planner.
Import Js Transcript Planner.

(** X28.  The subjects of the study plan form.  After any typing, adding
    and removing, every subject of the list is non-empty and has no
    whitespace at either end; and [handleGenerate] goes on exactly when
    the list is not empty. *)
Theorem subjects_are_trimmed (edits : list Edit) :
  Forall (λ s, trimmed s ∧ s ≠ []) (subjects (Planner.run edits))
  ∧ (generates (Planner.run edits) = true ↔ subjects (Planner.run edits) ≠ []).
Proof.
  split.
  - unfold Planner.run. induction edits as [|e edits IH] using rev_ind.
    + constructor.
    + rewrite foldl_app. cbn [foldl]. set (f := foldl Planner.step empty edits) in *.
      destruct e as [text| |i]; cbn [Planner.step].
      * done.
      * unfold addSubject. destruct (truthy (trim (subjectInput f))) eqn:E; [|done].
        cbn. apply Forall_app. split; [done|]. constructor; [|constructor].
        split; [apply trim_trimmed|by apply truthy_nonempty].
      * cbn. by apply Forall_delete.
  - unfold generates. by destruct (subjects _).
Qed.

End more_planner.
